(** * The index table of ficus' Hashmap and the runtime's line reader

    A shallow embedding of [compiler/bootstrap/Hashmap.c] (the generated C of
    the [Hashmap.index_t] variant: [makeindex], [size], [get], [set], [copy])
    and of [fx_fgets] from [runtime/ficus/impl/file.impl.h], with the
    properties of the design document proved over it.

    Array memory is an explicit store: a finite map from block addresses to
    reference-counted blocks of cells.  An [fx_arr_t] header is a value that
    points into the store, so that two headers may share a block, exactly as
    [fx_copy_arr] makes them do in C. *)

From Stdlib Require Import ZArith Lia Bool List Ascii String.
From stdpp Require Import base option list gmap.

Local Open Scope Z_scope.

(** ** The part of the runtime the generated code relies on *)

Module Runtime.

(** [int fx_status]: [FX_OK] is zero, every [FX_EXN_*] code is negative. *)
Inductive fx_status_t : Set :=
  | FX_OK
  | FX_EXN_IOError
  | FX_EXN_NoMatchError
  | FX_EXN_OutOfMemError
  | FX_EXN_OutOfRangeError
  | FX_EXN_SizeError.

(** The test [fx_status >= 0]. *)
Definition succeeded (s : fx_status_t) : bool :=
  match s with FX_OK => true | _ => false end.

Definition loc := positive.

(** A heap block: the reference counter that precedes the data, the size of
    one element in bytes, and the elements. *)
Record block : Type := Block {
  blk_rc : Z;
  blk_elemsize : Z;
  blk_cells : list Z
}.

(** The store.  [mem_left] is the number of bytes the allocator can still
    hand out and [junk] the value found in memory that was just allocated. *)
Record heap : Type := Heap {
  blocks : gmap loc block;
  mem_left : Z;
  junk : Z
}.

(** [fx_arr_t], one-dimensional: the pointer to the block ([rc] and [data]
    address the same block; [None] is the null pointer of [{0}]) and
    [dim[0].size]. *)
Record fx_arr_t : Type := Arr {
  data : option loc;
  dim0_size : Z
}.

Definition fx_arr_null : fx_arr_t := Arr None 0.

(** A typed pointer into a block: [(typ* )arr.data + off]. *)
Record ptr : Type := Ptr {
  p_base : option loc;
  p_off : Z
}.

(** Computations over the store.  [None] is undefined behaviour: an access
    outside a live block, or at the wrong element size. *)
Definition M (A : Type) : Type := heap -> option (A * heap).

#[export] Instance M_ret : MRet M := fun A a h => Some (a, h).

#[export] Instance M_bind : MBind M := fun A B k c h =>
  match c h with
  | Some (a, h') => k a h'
  | None => None
  end.

(** C element types of the three tiers. *)
Definition sizeof_uint8_t : Z := 1.
Definition sizeof_uint16_t : Z := 2.

(** Modelled from the spec: [int_] is declared in ficus.h, which is not among
    the sources; the design document calls it the native-word signed integer.
    It is taken as the 64-bit two's complement integer. *)
Definition sizeof_int_ : Z := 8.

(** The casts [(uint8_t)x] and [(uint16_t)x] of an [int_]. *)
Definition cast_uint8_t (x : Z) : Z := x mod 2 ^ 8.
Definition cast_uint16_t (x : Z) : Z := x mod 2 ^ 16.

(** The values an element of the given size can hold.  The two unsigned
    types are bounded; the model puts no bound on [int_], so an element of
    the native word size holds whatever [int_] is written to it. *)
Definition in_range (elemsize v : Z) : bool :=
  if elemsize =? sizeof_uint8_t then (0 <=? v) && (v <? 2 ^ 8)
  else if elemsize =? sizeof_uint16_t then (0 <=? v) && (v <? 2 ^ 16)
  else true.

Definition set_block (l : loc) (b : block) (h : heap) : heap :=
  Heap (<[l := b]> (blocks h)) (mem_left h) (junk h).

(** [*p] read at element size [sz]. *)
Definition load (sz : Z) (p : ptr) : M Z :=
  fun h =>
    match p_base p with
    | None => None
    | Some l =>
        match blocks h !! l with
        | None => None
        | Some b =>
            if (blk_elemsize b =? sz) && (0 <=? p_off p) then
              match blk_cells b !! Z.to_nat (p_off p) with
              | Some v => Some (v, h)
              | None => None
              end
            else None
        end
    end.

(** [*p = v] written at element size [sz]. *)
Definition store (sz : Z) (p : ptr) (v : Z) : M unit :=
  fun h =>
    match p_base p with
    | None => None
    | Some l =>
        match blocks h !! l with
        | None => None
        | Some b =>
            if (blk_elemsize b =? sz) && (0 <=? p_off p)
               && (p_off p <? Z.of_nat (length (blk_cells b))) then
              Some (tt, set_block l
                          (Block (blk_rc b) (blk_elemsize b)
                                 (<[Z.to_nat (p_off p) := v]> (blk_cells b))) h)
            else None
        end
    end.

(** Modelled from the spec: [fx_make_arr] is defined in the runtime's array
    implementation, which is not among the sources.  It allocates the block of
    a one-dimensional array of [size] elements of [elemsize] bytes with a
    reference count of one; it fails with the out-of-memory code when the
    allocator cannot provide the bytes and leaves a null header then.  The
    design document gives construction for non-negative sizes only; a
    negative size is rejected with the size error.  The content of the fresh
    block is whatever the allocator left there. *)
Definition fx_make_arr (size elemsize : Z) : M (fx_status_t * fx_arr_t) :=
  fun h =>
    if size <? 0 then Some ((FX_EXN_SizeError, fx_arr_null), h)
    else if mem_left h <? size * elemsize then
      Some ((FX_EXN_OutOfMemError, fx_arr_null), h)
    else
      let l := fresh (dom (blocks h)) in
      Some ((FX_OK, Arr (Some l) size),
            Heap (<[l := Block 1 elemsize (replicate (Z.to_nat size) (junk h))]>
                    (blocks h))
                 (mem_left h - size * elemsize) (junk h)).

(** Modelled from the spec: [fx_copy_arr] is defined in the runtime, which is
    not among the sources.  It copies the header and takes one more reference
    to the block: source and destination share the elements. *)
Definition fx_copy_arr (src : fx_arr_t) : M fx_arr_t :=
  fun h =>
    match data src with
    | None => Some (src, h)
    | Some l =>
        match blocks h !! l with
        | None => None
        | Some b =>
            Some (src, set_block l
                         (Block (blk_rc b + 1) (blk_elemsize b) (blk_cells b)) h)
        end
    end.

(** Modelled from the spec: [FX_FREE_ARR] is a macro of ficus.h, which is not
    among the sources.  It drops one reference; the block is released, and its
    bytes returned to the allocator, when that was the last one.  A null
    header is left alone. *)
Definition FX_FREE_ARR (arr : fx_arr_t) : M unit :=
  fun h =>
    match data arr with
    | None => Some (tt, h)
    | Some l =>
        match blocks h !! l with
        | None => None
        | Some b =>
            if blk_rc b - 1 =? 0 then
              Some (tt, Heap (delete l (blocks h))
                             (mem_left h
                              + Z.of_nat (length (blk_cells b)) * blk_elemsize b)
                             (junk h))
            else
              Some (tt, set_block l
                          (Block (blk_rc b - 1) (blk_elemsize b) (blk_cells b)) h)
        end
    end.

(** Modelled from the spec: [FX_ARR_SIZE], [FX_PTR_1D], [FX_CHKIDX1],
    [FX_CHKIDX] and [FX_FAST_THROW] are macros of ficus.h, which is not among
    the sources.  [FX_ARR_SIZE] is the length of the array and [FX_PTR_1D] the
    address of its element [idx].  [FX_CHKIDX1] is the index check
    [0 <= i < length] of the design document; where it fails, [FX_CHKIDX]
    sets the status to the out-of-range code and jumps to its label, which is
    the [else] branch of the check in [get] and [set] below.
    [FX_FAST_THROW] sets the status to its code and jumps likewise. *)
Definition FX_ARR_SIZE (arr : fx_arr_t) : Z := dim0_size arr.

Definition FX_PTR_1D (arr : fx_arr_t) (idx : Z) : ptr := Ptr (data arr) idx.

Definition FX_CHKIDX1 (arr : fx_arr_t) (i : Z) : bool :=
  (0 <=? i) && (i <? dim0_size arr).

Definition ptr_next (p : ptr) : ptr := Ptr (p_base p) (p_off p + 1).

Definition ptr_at (p : ptr) (i : Z) : ptr := Ptr (p_base p) (p_off p + i).

(** [for (int_ i = 0; i < n; i++, dstptr++) body]: [count] is the number of
    iterations left, [i] and [dstptr] the loop variables. *)
Fixpoint for_loop (count : nat) (i : Z) (dstptr : ptr)
    (body : Z -> ptr -> M unit) : M unit :=
  match count with
  | O => mret tt
  | S count' =>
      body i dstptr ;; for_loop count' (i + 1) (ptr_next dstptr) body
  end.

(** Modelled from the spec: [fx_free_arr] is defined in the runtime, which is
    not among the sources.  It drops the reference of the header as
    [FX_FREE_ARR] does and clears the pointers of the header; the dimensions
    stay as they were. *)
Definition fx_free_arr (arr : fx_arr_t) : M fx_arr_t :=
  FX_FREE_ARR arr ;; mret (Arr None (dim0_size arr)).

End Runtime.

Import Runtime.

(** ** compiler/bootstrap/Hashmap.c *)

Module Hashmap.

(** [struct _fx_N16Hashmap__index_t]: the tag and the union [u], whose three
    members [IndexByte], [IndexWord] and [IndexLarge] are all [fx_arr_t]. *)
Record index_t : Type := Index {
  tag : Z;
  u : fx_arr_t
}.

(** The three constructors: set the tag, share the array. *)
Definition IndexByte (arg0 : fx_arr_t) : M index_t :=
  a ← fx_copy_arr arg0; mret (Index 1 a).

Definition IndexWord (arg0 : fx_arr_t) : M index_t :=
  a ← fx_copy_arr arg0; mret (Index 2 a).

Definition IndexLarge (arg0 : fx_arr_t) : M index_t :=
  a ← fx_copy_arr arg0; mret (Index 3 a).

(** The code at [_fx_cleanup] of [makeindex]. *)
Definition makeindex_cleanup (v_0 v_1 v_2 : fx_arr_t)
    (fx_status : fx_status_t) (fx_result : index_t)
    : M (fx_status_t * index_t) :=
  FX_FREE_ARR v_0 ;; FX_FREE_ARR v_1 ;; FX_FREE_ARR v_2 ;;
  mret (fx_status, fx_result).

(** [makeindex(size_0, fx_result)]: [fx_result] is the content of the
    destination before the call; the status and its content after the call
    are returned. *)
Definition makeindex (size_0 : Z) (fx_result : index_t)
    : M (fx_status_t * index_t) :=
  let v_0 := fx_arr_null in
  let v_1 := fx_arr_null in
  let v_2 := fx_arr_null in
  if size_0 <=? 256 then
    '(fx_status, v_0) ← fx_make_arr size_0 sizeof_uint8_t;
    if succeeded fx_status then
      for_loop (Z.to_nat size_0) 0 (Ptr (data v_0) 0)
        (fun i_0 dstptr_0 => store sizeof_uint8_t dstptr_0 0) ;;
      fx_result ← IndexByte v_0;
      makeindex_cleanup v_0 v_1 v_2 fx_status fx_result
    else makeindex_cleanup v_0 v_1 v_2 fx_status fx_result
  else if size_0 <=? 65536 then
    '(fx_status, v_1) ← fx_make_arr size_0 sizeof_uint16_t;
    if succeeded fx_status then
      for_loop (Z.to_nat size_0) 0 (Ptr (data v_1) 0)
        (fun i_1 dstptr_1 => store sizeof_uint16_t dstptr_1 0) ;;
      fx_result ← IndexWord v_1;
      makeindex_cleanup v_0 v_1 v_2 fx_status fx_result
    else makeindex_cleanup v_0 v_1 v_2 fx_status fx_result
  else
    '(fx_status, v_2) ← fx_make_arr size_0 sizeof_int_;
    if succeeded fx_status then
      for_loop (Z.to_nat size_0) 0 (Ptr (data v_2) 0)
        (fun i_2 dstptr_2 => store sizeof_int_ dstptr_2 0) ;;
      fx_result ← IndexLarge v_2;
      makeindex_cleanup v_0 v_1 v_2 fx_status fx_result
    else makeindex_cleanup v_0 v_1 v_2 fx_status fx_result.

(** [size(idx_0, fx_result)] reads the header only. *)
Definition size (idx_0 : index_t) (fx_result : Z) : fx_status_t * Z :=
  let tag_0 := tag idx_0 in
  if tag_0 =? 1 then (FX_OK, FX_ARR_SIZE (u idx_0))
  else if tag_0 =? 2 then (FX_OK, FX_ARR_SIZE (u idx_0))
  else if tag_0 =? 3 then (FX_OK, FX_ARR_SIZE (u idx_0))
  else (FX_EXN_NoMatchError, fx_result).

(** [get(idx_0, i_0, fx_result)]: a failed index check jumps over the read
    and leaves the destination as it was. *)
Definition get (idx_0 : index_t) (i_0 : Z) (fx_result : Z)
    : M (fx_status_t * Z) :=
  let tag_0 := tag idx_0 in
  if tag_0 =? 1 then
    if FX_CHKIDX1 (u idx_0) i_0 then
      x ← load sizeof_uint8_t (FX_PTR_1D (u idx_0) i_0); mret (FX_OK, x)
    else mret (FX_EXN_OutOfRangeError, fx_result)
  else if tag_0 =? 2 then
    if FX_CHKIDX1 (u idx_0) i_0 then
      x ← load sizeof_uint16_t (FX_PTR_1D (u idx_0) i_0); mret (FX_OK, x)
    else mret (FX_EXN_OutOfRangeError, fx_result)
  else if tag_0 =? 3 then
    if FX_CHKIDX1 (u idx_0) i_0 then
      x ← load sizeof_int_ (FX_PTR_1D (u idx_0) i_0); mret (FX_OK, x)
    else mret (FX_EXN_OutOfRangeError, fx_result)
  else mret (FX_EXN_NoMatchError, fx_result).

(** [set(idx_0, i_0, newval_0)]. *)
Definition set (idx_0 : index_t) (i_0 newval_0 : Z) : M fx_status_t :=
  let tag_0 := tag idx_0 in
  if tag_0 =? 1 then
    if FX_CHKIDX1 (u idx_0) i_0 then
      store sizeof_uint8_t (FX_PTR_1D (u idx_0) i_0) (cast_uint8_t newval_0) ;;
      mret FX_OK
    else mret FX_EXN_OutOfRangeError
  else if tag_0 =? 2 then
    if FX_CHKIDX1 (u idx_0) i_0 then
      store sizeof_uint16_t (FX_PTR_1D (u idx_0) i_0) (cast_uint16_t newval_0) ;;
      mret FX_OK
    else mret FX_EXN_OutOfRangeError
  else if tag_0 =? 3 then
    if FX_CHKIDX1 (u idx_0) i_0 then
      store sizeof_int_ (FX_PTR_1D (u idx_0) i_0) newval_0 ;;
      mret FX_OK
    else mret FX_EXN_OutOfRangeError
  else mret FX_EXN_NoMatchError.

(** One tier of [copy]: [elemsize] is the element size of the tier and
    [con] its constructor.  [tab] shares the source array for the duration of
    the call; the elements are copied one by one into a new array [v]. *)
Definition copy_tier (elemsize : Z) (con : fx_arr_t -> M index_t)
    (src : fx_arr_t) (fx_result : index_t) : M (fx_status_t * index_t) :=
  let v := fx_arr_null in
  tab ← fx_copy_arr src;
  let ni := FX_ARR_SIZE tab in
  let ptr_tab := FX_PTR_1D tab 0 in
  '(fx_status, v) ← fx_make_arr ni elemsize;
  if succeeded fx_status then
    for_loop (Z.to_nat ni) 0 (Ptr (data v) 0)
      (fun i dstptr => x ← load elemsize (ptr_at ptr_tab i);
                       store elemsize dstptr x) ;;
    fx_result ← con v;
    FX_FREE_ARR tab ;; FX_FREE_ARR v ;; mret (fx_status, fx_result)
  else
    FX_FREE_ARR tab ;; FX_FREE_ARR v ;; mret (fx_status, fx_result).

(** [copy(idx_0, fx_result)]: the three branches of the C function differ in
    the element type and the constructor only. *)
Definition copy (idx_0 : index_t) (fx_result : index_t)
    : M (fx_status_t * index_t) :=
  let tag_0 := tag idx_0 in
  if tag_0 =? 1 then copy_tier sizeof_uint8_t IndexByte (u idx_0) fx_result
  else if tag_0 =? 2 then copy_tier sizeof_uint16_t IndexWord (u idx_0) fx_result
  else if tag_0 =? 3 then copy_tier sizeof_int_ IndexLarge (u idx_0) fx_result
  else mret (FX_EXN_NoMatchError, fx_result).

(** *** Vocabulary of the properties *)

(** The element size of a tier, by tag. *)
Definition tier_elemsize (t : Z) : option Z :=
  if t =? 1 then Some sizeof_uint8_t
  else if t =? 2 then Some sizeof_uint16_t
  else if t =? 3 then Some sizeof_int_
  else None.

(** The tier the design document assigns to a requested size. *)
Definition tier_of_size (n : Z) : Z :=
  if n <=? 256 then 1 else if n <=? 65536 then 2 else 3.

(** The bytes [makeindex] asks the allocator for. *)
Definition request_bytes (n : Z) : Z :=
  n * (if n <=? 256 then sizeof_uint8_t
       else if n <=? 65536 then sizeof_uint16_t
       else sizeof_int_).

(** The narrowing [set] applies to the new value, by tag. *)
Definition tier_cast (t v : Z) : Z :=
  if t =? 1 then cast_uint8_t v
  else if t =? 2 then cast_uint16_t v
  else v.

(** The store after the allocator handed out [n] bytes. *)
Definition charge (n : Z) (h : heap) : heap :=
  Heap (blocks h) (mem_left h - n) (junk h).

(** A container is valid in a store when its tag is one of the three tiers
    and its array points to a live block of that tier's element size which
    holds [length] elements, each within the range of the element type. *)
Definition valid (h : heap) (idx : index_t) : bool :=
  match tier_elemsize (tag idx), data (u idx) with
  | Some sz, Some l =>
      match blocks h !! l with
      | Some b =>
          (blk_elemsize b =? sz)
          && (Z.of_nat (length (blk_cells b)) =? dim0_size (u idx))
          && (0 <? blk_rc b)
          && forallb (in_range sz) (blk_cells b)
      | None => false
      end
  | _, _ => false
  end.

(** The elements of a container, as the store holds them. *)
Definition cells_of (h : heap) (idx : index_t) : list Z :=
  match data (u idx) with
  | Some l =>
      match blocks h !! l with
      | Some b => blk_cells b
      | None => []
      end
  | None => []
  end.

(** The calls a client makes on one container between construction and
    disposal. *)
Inductive op : Type :=
  | OpGet (i : Z)
  | OpSet (i v : Z).

Definition run_op (idx : index_t) (o : op) : M unit :=
  match o with
  | OpGet i => get idx i 0 ;; mret tt
  | OpSet i v => set idx i v ;; mret tt
  end.

Fixpoint run_ops (idx : index_t) (os : list op) : M unit :=
  match os with
  | [] => mret tt
  | o :: os' => run_op idx o ;; run_ops idx os'
  end.

(** The stores and sets of containers a program reaches from the empty
    store by constructing, copying, reading and writing containers. *)
Inductive reachable : heap -> list index_t -> Prop :=
  | reach_init mem j : reachable (Heap ∅ mem j) []
  | reach_makeindex h cs size_0 res st idx h' :
      reachable h cs ->
      makeindex size_0 res h = Some ((st, idx), h') ->
      reachable h' (if succeeded st then idx :: cs else cs)
  | reach_copy h cs a res st b h' :
      reachable h cs -> a ∈ cs ->
      copy a res h = Some ((st, b), h') ->
      reachable h' (if succeeded st then b :: cs else cs)
  | reach_get h cs a i res r h' :
      reachable h cs -> a ∈ cs ->
      get a i res h = Some (r, h') ->
      reachable h' cs
  | reach_set h cs a i v st h' :
      reachable h cs -> a ∈ cs ->
      set a i v h = Some (st, h') ->
      reachable h' cs.

(** *** The destructor and the reference copy of the variant *)

(** [_fx_free_N16Hashmap__index_t(dst)]: releases the array of the active
    member and clears the tag; under any other tag only the tag is
    cleared.  The content of [dst] after the call is returned. *)
Definition _fx_free_N16Hashmap__index_t (dst : index_t) : M index_t :=
  let t := tag dst in
  if t =? 1 then a ← fx_free_arr (u dst); mret (Index 0 a)
  else if t =? 2 then a ← fx_free_arr (u dst); mret (Index 0 a)
  else if t =? 3 then a ← fx_free_arr (u dst); mret (Index 0 a)
  else mret (Index 0 (u dst)).

(** [_fx_copy_N16Hashmap__index_t(src, dst)]: every field of [dst] is
    overwritten, so only its content after the call appears here.  The tag
    is copied; the array of the active member is shared through
    [fx_copy_arr]; under any other tag the union is copied as it is. *)
Definition _fx_copy_N16Hashmap__index_t (src : index_t) : M index_t :=
  let t := tag src in
  if t =? 1 then a ← fx_copy_arr (u src); mret (Index t a)
  else if t =? 2 then a ← fx_copy_arr (u src); mret (Index t a)
  else if t =? 3 then a ← fx_copy_arr (u src); mret (Index t a)
  else mret (Index t (u src)).

(** The number of handles of a list that point to block [l]. *)
Fixpoint refs (l : loc) (cs : list index_t) : Z :=
  match cs with
  | [] => 0
  | c :: cs' =>
      (if decide (data (u c) = Some l) then 1 else 0) + refs l cs'
  end.

(** The bytes of a block, and of all blocks of a store. *)
Definition block_bytes (b : block) : Z :=
  Z.of_nat (length (blk_cells b)) * blk_elemsize b.

Definition allocated (m : gmap loc block) : Z :=
  map_fold (fun _ b acc => block_bytes b + acc) 0 m.

(** The states a program reaches from an empty store with [mem0] bytes when
    it also shares handles with [_fx_copy_N16Hashmap__index_t] and disposes
    of them with [_fx_free_N16Hashmap__index_t]: the store, and the handles
    that were made and not yet freed. *)
Inductive world (mem0 : Z) : heap -> list index_t -> Prop :=
  | world_init j : world mem0 (Heap ∅ mem0 j) []
  | world_makeindex h cs size_0 res st idx h' :
      world mem0 h cs ->
      makeindex size_0 res h = Some ((st, idx), h') ->
      world mem0 h' (if succeeded st then idx :: cs else cs)
  | world_copy h cs a res st b h' :
      world mem0 h cs -> a ∈ cs ->
      copy a res h = Some ((st, b), h') ->
      world mem0 h' (if succeeded st then b :: cs else cs)
  | world_share h cs a b h' :
      world mem0 h cs -> a ∈ cs ->
      _fx_copy_N16Hashmap__index_t a h = Some (b, h') ->
      world mem0 h' (b :: cs)
  | world_free h cs1 a cs2 a' h' :
      world mem0 h (cs1 ++ a :: cs2) ->
      _fx_free_N16Hashmap__index_t a h = Some (a', h') ->
      world mem0 h' (cs1 ++ cs2)
  | world_get h cs a i res r h' :
      world mem0 h cs -> a ∈ cs ->
      get a i res h = Some (r, h') ->
      world mem0 h' cs
  | world_set h cs a i v st h' :
      world mem0 h cs -> a ∈ cs ->
      set a i v h = Some (st, h') ->
      world mem0 h' cs.

(** What every state of [world] satisfies: the handles are valid, the
    reference count of each block is the number of handles that point to it
    and is positive, and the bytes handed out and the bytes left add up to
    the bytes the allocator started with. *)
Definition world_inv (mem0 : Z) (h : heap) (cs : list index_t) : Prop :=
  (forall c, c ∈ cs -> valid h c = true)
  /\ (forall l b, blocks h !! l = Some b ->
                  0 < blk_rc b /\ blk_rc b = refs l cs)
  /\ mem_left h + allocated (blocks h) = mem0.

(** *** Concrete containers *)

(** An empty store, and the content of a destination before it is written. *)
Definition empty_store : heap := Heap ∅ 4096 7.

Definition no_index : index_t := Index 0 fx_arr_null.

(** What [makeindex 4] makes of the empty store. *)
Definition narrow_index : index_t := Index 1 (Arr (Some 1%positive) 4).

Definition zero_store : heap :=
  Heap {[ 1%positive := Block 1 sizeof_uint8_t [0; 0; 0; 0] ]} 4092 7.

(** A store with the elements 7, 0, 255, 4 under [narrow_index], and what
    [copy] makes of it. *)
Definition narrow_store : heap :=
  Heap {[ 1%positive := Block 1 sizeof_uint8_t [7; 0; 255; 4] ]} 4092 7.

Definition narrow_copy : index_t := Index 1 (Arr (Some 2%positive) 4).

Definition copied_store : heap :=
  Heap (<[ 2%positive := Block 1 sizeof_uint8_t [7; 0; 255; 4] ]>
          (blocks narrow_store)) 4088 7.

(** [narrow_store] after [set narrow_index 1 300]. *)
Definition written_store : heap :=
  Heap {[ 1%positive := Block 1 sizeof_uint8_t [7; 44; 255; 4] ]} 4092 7.

(** [zero_store] after [narrow_index] was shared once. *)
Definition shared_store : heap :=
  Heap {[ 1%positive := Block 2 sizeof_uint8_t [0; 0; 0; 0] ]} 4092 7.

(** [narrow_index] after it was disposed of. *)
Definition dead_index : index_t := Index 0 (Arr None 4).

(** [zero_store] after [set narrow_index 1 (-1)]. *)
Definition minus_one_store : heap :=
  Heap {[ 1%positive := Block 1 sizeof_uint8_t [0; 255; 0; 0] ]} 4092 7.

End Hashmap.

(** ** runtime/ficus/impl/file.impl.h *)

Module File.

Definition FX_FILE_ROW_BUFSIZE : Z := 128.

Definition INT_MAX : Z := 2 ^ 31 - 1.

(** The conversion of an [int_] or a [size_t] to [int]. *)
Definition to_int (z : Z) : Z := (z + 2 ^ 31) mod 2 ^ 32 - 2 ^ 31.

Definition newline : ascii := "010"%char.
Definition NUL : ascii := "000"%char.

(** What the stream does once its characters are used up. *)
Inductive stream_end : Set :=
  | EndOfFile
  | ReadError.

(** An open [FILE]: the characters still to come, what follows them, and
    the end-of-file indicator that [feof] tests. *)
Record FILE : Type := MkFile {
  pending : list ascii;
  ending : stream_end;
  eof_indicator : bool
}.

(** The characters one call of [fgets] takes from the stream: at most [n],
    stopping after a newline.  The flag tells whether the call stopped on
    its own (newline seen or room used up) rather than because the stream
    ran dry. *)
Fixpoint fgets_chars (n : nat) (s : list ascii)
    : list ascii * list ascii * bool :=
  match n with
  | O => ([], s, true)
  | S n' =>
      match s with
      | [] => ([], [], false)
      | c :: s' =>
          if Ascii.eqb c newline then ([c], s', true)
          else let '(l, r, stopped) := fgets_chars n' s' in (c :: l, r, stopped)
      end
  end.

(** Modelled from the spec: [fgets] and [feof] are the C library's.
    [fgets(s, count, f)] stores at most [count - 1] characters and a
    terminating NUL; it returns a null pointer when the end of the file comes
    before any character, or when reading fails.  On a stream whose
    end-of-file indicator is already set it takes no character and returns
    a null pointer at once. *)
Definition fgets (count : Z) (f : FILE) : option (list ascii) * FILE :=
  if eof_indicator f then (None, f)
  else
    let '(chunk, rest, stopped) :=
      fgets_chars (Z.to_nat (count - 1)) (pending f) in
    if stopped then (Some chunk, MkFile rest (ending f) (eof_indicator f))
    else
      match ending f with
      | EndOfFile =>
          match chunk with
          | [] => (None, MkFile [] EndOfFile true)
          | _ :: _ => (Some chunk, MkFile [] EndOfFile true)
          end
      | ReadError => (None, MkFile [] ReadError (eof_indicator f))
      end.

Definition feof (f : FILE) : bool := eof_indicator f.

(** [strlen]: the characters before the first NUL. *)
Fixpoint strlen (s : list ascii) : Z :=
  match s with
  | [] => 0
  | c :: s' => if Ascii.eqb c NUL then 0 else 1 + strlen s'
  end.

(** Modelled from the spec: [fx_realloc] is the runtime's allocator, which
    is not among the sources.  A request succeeds when the allocator still
    has that many bytes, [mem]; the content of the old buffer is kept. *)
Definition fx_realloc (mem : Z) (size : Z) : bool := size <=? mem.

(** Modelled from the spec: [fx_cstr2str] is defined in the runtime's string
    implementation, which is not among the sources.  It makes the string out
    of the first [len] characters of the buffer. *)
Definition fx_cstr2str (buf : list ascii) (len : Z)
    : fx_status_t * list ascii :=
  (FX_OK, take (Z.to_nat len) buf).

(** The [for(;;)] loop of [fx_fgets].  [buf] holds the characters of the
    buffer below [bufofs]: each [fgets] writes at [buf + bufofs], and both
    the [memcpy] out of [buf0] and [fx_realloc] keep what is below.  [fuel]
    bounds the number of iterations; [None] means it was used up. *)
Fixpoint fx_fgets_loop (fuel : nat) (mem : Z) (f : FILE)
    (bufsz bufofs : Z) (buf : list ascii)
    : option (fx_status_t * Z * list ascii * FILE) :=
  match fuel with
  | O => None
  | S fuel' =>
      let count := to_int (bufsz - bufofs) in
      let count := if count >? INT_MAX then INT_MAX else count in
      let '(ptr, f) := fgets count f in
      match ptr with
      | None =>
          if negb (feof f) then Some (FX_EXN_IOError, bufofs, buf, f)
          else Some (FX_OK, bufofs, buf, f)
      | Some chunk =>
          let blocksz := to_int (strlen chunk) in
          let buf := buf ++ take (Z.to_nat blocksz) chunk in
          let bufofs := bufofs + blocksz in
          if blocksz <? count - 1 then Some (FX_OK, bufofs, buf, f)
          else if bufsz - bufofs <? 16 then
            let bufsz := Z.quot (bufsz * 3) 2 in
            if fx_realloc mem bufsz then
              fx_fgets_loop fuel' mem f bufsz bufofs buf
            else Some (FX_EXN_OutOfMemError, bufofs, buf, f)
          else fx_fgets_loop fuel' mem f bufsz bufofs buf
      end
  end.

(** [fx_fgets(f, str)]: [str] is the content of the destination before the
    call; the status, the destination and the stream after the call are
    returned.  The loop is given one more iteration than there are pending
    characters. *)
Definition fx_fgets (mem : Z) (f : FILE) (str : list ascii)
    : option (fx_status_t * list ascii * FILE) :=
  match fx_fgets_loop (S (length (pending f))) mem f FX_FILE_ROW_BUFSIZE 0 []
  with
  | None => None
  | Some (fx_status, bufofs, buf, f') =>
      if succeeded fx_status then
        let '(fx_status, str) := fx_cstr2str buf bufofs in
        Some (fx_status, str, f')
      else Some (fx_status, str, f')
  end.

(** A stream of two lines, the first of 126 letters and a newline: 127
    characters, exactly what the first [fgets] of [fx_fgets] has room for. *)
Definition full_block_line : list ascii :=
  replicate 126 "a"%char ++ [newline].

Definition two_lines : FILE :=
  MkFile (full_block_line ++ ["b"%char; newline]) EndOfFile false.

(** *** Writing *)

(** A stream open for writing, as the caller of [fputs] sees it: the
    characters the stream has accepted so far, and the number of bytes it
    still accepts before a call reports a failure.  On an unbuffered stream
    that is the room left on the device; a buffered stream reports the
    failure of its device only in the call that flushes the buffer, so its
    [room] is the larger by what the buffer holds. *)
Record OFILE : Type := MkOut {
  written : list ascii;
  room : Z
}.

(** The result of [fputs]: [EOF] is the failure. *)
Inductive fputs_result : Set :=
  | FputsDone
  | EOF.

(** The characters of a C string: those before the first NUL. *)
Fixpoint cstring (s : list ascii) : list ascii :=
  match s with
  | [] => []
  | c :: s' => if Ascii.eqb c NUL then [] else c :: cstring s'
  end.

(** Modelled from the spec: [fputs] is the C library's.  It hands the
    characters of the C string to the stream and succeeds when the stream
    accepts them all.  The other branch, [EOF] after the characters the
    stream still accepted, is the behaviour of an unbuffered stream; what a
    buffered stream has kept when a flush fails is not described by it, and
    only the branch of success is used in what is proved of [fx_fputs]. *)
Definition fputs (buf : list ascii) (f : OFILE) : fputs_result * OFILE :=
  let s := cstring buf in
  if Z.of_nat (length s) <=? room f then
    (FputsDone, MkOut (written f ++ s) (room f - Z.of_nat (length s)))
  else (EOF, MkOut (written f ++ take (Z.to_nat (room f)) s) 0).

(** Modelled from the spec: [fx_str2cstr_slice] is defined in the runtime's
    string implementation, which is not among the sources.  It fills the
    buffer with the encoding of the characters of the string from [start]
    on, [maxlen] of them at most and no more than the string has, as the
    comment in [fx_fputs] says.  A string is the list of its characters, each
    a code point; the encoding of one character is the parameter
    [encode]. *)
Definition fx_str2cstr_slice (encode : Z -> list ascii) (str : list Z)
    (start maxlen : Z) : list ascii :=
  flat_map encode (take (Z.to_nat maxlen) (drop (Z.to_nat start) str)).

(** The loop of [fx_fputs]: [for( i = 0; i < len; i += BUFSZ )].  [fuel]
    bounds the number of passes; [None] means it was used up. *)
Fixpoint fx_fputs_loop (fuel : nat) (encode : Z -> list ascii) (f : OFILE)
    (str : list Z) (i : Z) : option (fx_status_t * OFILE) :=
  match fuel with
  | O => None
  | S fuel' =>
      let BUFSZ := FX_FILE_ROW_BUFSIZE in
      let len := Z.of_nat (length str) in
      if i <? len then
        let buf := fx_str2cstr_slice encode str i BUFSZ in
        match fputs buf f with
        | (EOF, f') => Some (FX_EXN_IOError, f')
        | (FputsDone, f') => fx_fputs_loop fuel' encode f' str (i + BUFSZ)
        end
      else Some (FX_OK, f)
  end.

(** [fx_fputs(f, str)]: one pass more than the string has characters is
    given to the loop. *)
Definition fx_fputs (encode : Z -> list ascii) (f : OFILE) (str : list Z)
    : option (fx_status_t * OFILE) :=
  fx_fputs_loop (S (length str)) encode f str 0.

(** An encoding for the concrete cases: one byte per character. *)
Definition one_byte (c : Z) : list ascii := [ascii_of_N (Z.to_N c)].

(** A string of 300 letters, which takes three passes of the loop. *)
Definition long_string : list Z := replicate 300 97.

(** Three short streams: a line and the start of the next, the last words of
    a file that does not end in a newline, and a stream whose device fails. *)
Definition short_stream : FILE :=
  MkFile ["a"; "b"; newline; "c"]%char EndOfFile false.


Definition broken_stream : FILE := MkFile ["a"; "b"]%char ReadError false.

(** The first line of a text: up to and including the first newline, or all
    of it when there is none.  This is what the design document has
    [readLine] return. *)
Fixpoint first_line (s : list ascii) : list ascii :=
  match s with
  | [] => []
  | c :: s' => if Ascii.eqb c newline then [c] else c :: first_line s'
  end.

End File.

(** ** Properties of the index table *)

Module HashmapProperties.
Import Hashmap.

(** *** The store and the loops *)

Lemma heap_eq (h1 h2 : heap) :
  blocks h1 = blocks h2 -> mem_left h1 = mem_left h2 -> junk h1 = junk h2 ->
  h1 = h2.
Proof. destruct h1, h2; simpl; intros; subst; reflexivity. Qed.

Lemma bind_run {A B} (c : M A) (k : A -> M B) (h : heap) :
  (c ≫= k) h = match c h with Some (a, h') => k a h' | None => None end.
Proof. reflexivity. Qed.

Lemma set_block_twice l b b' h :
  set_block l b (set_block l b' h) = set_block l b h.
Proof.
  unfold set_block; cbn [blocks mem_left junk]. now rewrite insert_insert_eq.
Qed.

Lemma set_block_lookup l b h : blocks (set_block l b h) !! l = Some b.
Proof. unfold set_block; cbn [blocks]. apply lookup_insert_eq. Qed.

Lemma set_block_lookup_ne l l' b h :
  l ≠ l' -> blocks (set_block l b h) !! l' = blocks h !! l'.
Proof. intros. unfold set_block; cbn [blocks]. now apply lookup_insert_ne. Qed.

Lemma set_block_id l b h : blocks h !! l = Some b -> set_block l b h = h.
Proof.
  intros Hl. apply heap_eq; try reflexivity.
  unfold set_block; cbn [blocks]. now apply insert_id.
Qed.

Lemma store_live sz l rc cells v h (k : nat) :
  (k < length cells)%nat ->
  store sz (Ptr (Some l) (Z.of_nat k)) v (set_block l (Block rc sz cells) h)
  = Some (tt, set_block l (Block rc sz (<[k := v]> cells)) h).
Proof.
  intros Hk. unfold store; cbn [p_base p_off].
  rewrite set_block_lookup; cbn [blk_elemsize blk_cells blk_rc].
  rewrite Z.eqb_refl, Nat2Z.id.
  replace (0 <=? Z.of_nat k) with true by (symmetry; apply Z.leb_le; lia).
  replace (Z.of_nat k <? Z.of_nat (length cells)) with true
    by (symmetry; apply Z.ltb_lt; lia).
  cbn [andb]. now rewrite set_block_twice.
Qed.

(** A loop whose body stores [f j] into element [j] rewrites the elements
    [k .. k+n-1] of the block and nothing else. *)
Lemma for_loop_fill body (f : nat -> Z) l rc sz h :
  forall (n k : nat) (cells : list Z),
    (k + n <= length cells)%nat ->
    (forall (j : nat) cs, (k <= j < k + n)%nat -> length cs = length cells ->
       body (Z.of_nat j) (Ptr (Some l) (Z.of_nat j))
            (set_block l (Block rc sz cs) h)
       = store sz (Ptr (Some l) (Z.of_nat j)) (f j)
               (set_block l (Block rc sz cs) h)) ->
    for_loop n (Z.of_nat k) (Ptr (Some l) (Z.of_nat k)) body
             (set_block l (Block rc sz cells) h)
    = Some (tt, set_block l
                  (Block rc sz (take k cells ++ (f <$> seq k n)
                                ++ drop (k + n) cells)) h).
Proof.
  induction n as [|n IH]; intros k cells Hlen Hbody.
  - simpl. rewrite Nat.add_0_r, take_drop. reflexivity.
  - cbn [for_loop]. rewrite bind_run.
    rewrite (Hbody k cells) by lia.
    rewrite store_live by lia.
    unfold ptr_next; cbn [p_base p_off].
    replace (Z.of_nat k + 1) with (Z.of_nat (S k)) by lia.
    rewrite IH.
    + do 3 f_equal.
      rewrite (take_S_r _ _ (f k)) by (apply list_lookup_insert_eq; lia).
      rewrite take_insert_ge by lia.
      rewrite drop_insert_lt by lia.
      cbn [seq fmap list_fmap]. rewrite <- app_assoc. simpl.
      now replace (S (k + n))%nat with (k + S n)%nat by lia.
    + rewrite length_insert. lia.
    + intros j cs Hj Hcs. apply Hbody; [lia|].
      now rewrite Hcs, length_insert.
Qed.

Lemma fmap_const_seq {A} (x : A) k n :
  ((fun _ : nat => x) <$> seq k n) = replicate n x.
Proof.
  revert k; induction n as [|n IH]; intros k; simpl; [reflexivity|].
  now rewrite IH.
Qed.

Lemma fx_make_arr_ok n sz h :
  0 <= n -> n * sz <= mem_left h ->
  fx_make_arr n sz h
  = Some ((FX_OK, Arr (Some (fresh (dom (blocks h)))) n),
          set_block (fresh (dom (blocks h)))
            (Block 1 sz (replicate (Z.to_nat n) (junk h)))
            (charge (n * sz) h)).
Proof.
  intros Hn Hmem. unfold fx_make_arr.
  destruct (Z.ltb_spec n 0); [lia|].
  destruct (Z.ltb_spec (mem_left h) (n * sz)); [lia|].
  reflexivity.
Qed.

Lemma fx_make_arr_negative n sz h :
  n < 0 -> fx_make_arr n sz h = Some ((FX_EXN_SizeError, fx_arr_null), h).
Proof.
  intros Hn. unfold fx_make_arr.
  destruct (Z.ltb_spec n 0); [reflexivity|lia].
Qed.

Lemma fx_make_arr_exhausted n sz h :
  0 <= n -> mem_left h < n * sz ->
  fx_make_arr n sz h = Some ((FX_EXN_OutOfMemError, fx_arr_null), h).
Proof.
  intros Hn Hmem. unfold fx_make_arr.
  destruct (Z.ltb_spec n 0); [lia|].
  destruct (Z.ltb_spec (mem_left h) (n * sz)); [reflexivity|lia].
Qed.

Lemma fx_copy_arr_live l n rc sz cells h :
  fx_copy_arr (Arr (Some l) n) (set_block l (Block rc sz cells) h)
  = Some (Arr (Some l) n, set_block l (Block (rc + 1) sz cells) h).
Proof.
  unfold fx_copy_arr; cbn [data].
  rewrite set_block_lookup; cbn [blk_rc blk_elemsize blk_cells].
  now rewrite set_block_twice.
Qed.

Lemma FX_FREE_ARR_shared l n rc sz cells h :
  rc - 1 <> 0 ->
  FX_FREE_ARR (Arr (Some l) n) (set_block l (Block rc sz cells) h)
  = Some (tt, set_block l (Block (rc - 1) sz cells) h).
Proof.
  intros Hrc. unfold FX_FREE_ARR; cbn [data].
  rewrite set_block_lookup; cbn [blk_rc blk_elemsize blk_cells].
  destruct (Z.eqb_spec (rc - 1) 0); [lia|].
  now rewrite set_block_twice.
Qed.

Lemma FX_FREE_ARR_null h : FX_FREE_ARR fx_arr_null h = Some (tt, h).
Proof. reflexivity. Qed.

(** Filling a fresh array from its first to its last element. *)
Lemma for_loop_fill_all body (f : nat -> Z) l rc sz h n cells :
  length cells = n ->
  (forall (j : nat) cs, (j < n)%nat -> length cs = n ->
     body (Z.of_nat j) (Ptr (Some l) (Z.of_nat j))
          (set_block l (Block rc sz cs) h)
     = store sz (Ptr (Some l) (Z.of_nat j)) (f j)
             (set_block l (Block rc sz cs) h)) ->
  for_loop n 0 (Ptr (Some l) 0) body (set_block l (Block rc sz cells) h)
  = Some (tt, set_block l (Block rc sz (f <$> seq 0 n)) h).
Proof.
  intros Hlen Hbody.
  change 0 with (Z.of_nat 0).
  rewrite (for_loop_fill body f l rc sz h n 0 cells).
  - rewrite take_0, drop_ge by (simpl; lia).
    now rewrite app_nil_l, app_nil_r.
  - simpl; lia.
  - intros j cs Hj Hcs. apply Hbody; [lia|congruence].
Qed.

(** One step of a computation: rewrite the next call with its equation. *)
Ltac step_with lem := rewrite bind_run, lem; cbv beta iota.
Ltac step_by lem tac := (rewrite bind_run, lem by tac); cbv beta iota.

(** The three branches of [makeindex] run the same steps. *)
Ltac makeindex_branch Hn Hmem :=
  step_by fx_make_arr_ok ltac:(try exact Hn; try exact Hmem);
  cbn [succeeded data];
  (rewrite bind_run, (for_loop_fill_all _ (fun _ => 0))
    by (try apply length_replicate; reflexivity));
  cbv beta iota;
  rewrite fmap_const_seq;
  unfold IndexByte, IndexWord, IndexLarge, makeindex_cleanup;
  rewrite bind_run; step_with fx_copy_arr_live;
  unfold mret, M_ret; cbv beta iota;
  repeat first [ step_with FX_FREE_ARR_null
               | step_by FX_FREE_ARR_shared ltac:(lia) ];
  reflexivity.

Lemma makeindex_ok size_0 res sz h :
  0 <= size_0 ->
  tier_elemsize (tier_of_size size_0) = Some sz ->
  size_0 * sz <= mem_left h ->
  makeindex size_0 res h
  = Some ((FX_OK,
           Index (tier_of_size size_0)
                 (Arr (Some (fresh (dom (blocks h)))) size_0)),
          set_block (fresh (dom (blocks h)))
            (Block 1 sz (replicate (Z.to_nat size_0) 0))
            (charge (size_0 * sz) h)).
Proof.
  intros Hn Hsz Hmem. unfold makeindex, tier_of_size in *.
  destruct (size_0 <=? 256); [|destruct (size_0 <=? 65536)];
    cbv in Hsz; injection Hsz as <-.
  - change 1 with sizeof_uint8_t in Hmem. makeindex_branch Hn Hmem.
  - change 2 with sizeof_uint16_t in Hmem. makeindex_branch Hn Hmem.
  - change 8 with sizeof_int_ in Hmem. makeindex_branch Hn Hmem.
Qed.

Lemma makeindex_negative size_0 res h :
  size_0 < 0 -> makeindex size_0 res h = Some ((FX_EXN_SizeError, res), h).
Proof.
  intros Hn. unfold makeindex.
  destruct (Z.leb_spec size_0 256); [|lia].
  now rewrite bind_run, fx_make_arr_negative.
Qed.

Lemma makeindex_exhausted size_0 res sz h :
  0 <= size_0 ->
  tier_elemsize (tier_of_size size_0) = Some sz ->
  mem_left h < size_0 * sz ->
  makeindex size_0 res h = Some ((FX_EXN_OutOfMemError, res), h).
Proof.
  intros Hn Hsz Hmem. unfold makeindex, tier_of_size in *.
  destruct (size_0 <=? 256); [|destruct (size_0 <=? 65536)];
    cbv in Hsz; injection Hsz as <-;
    now rewrite bind_run, fx_make_arr_exhausted.
Qed.

Lemma tier_of_size_elemsize n :
  exists sz, tier_elemsize (tier_of_size n) = Some sz /\ 0 < sz.
Proof.
  unfold tier_of_size.
  destruct (n <=? 256); [|destruct (n <=? 65536)];
    eexists; (split; [reflexivity|reflexivity]).
Qed.

(** *** Reading and writing a valid container *)

Lemma tier_cases t sz :
  tier_elemsize t = Some sz ->
  (t = 1 /\ sz = sizeof_uint8_t) \/ (t = 2 /\ sz = sizeof_uint16_t)
  \/ (t = 3 /\ sz = sizeof_int_).
Proof.
  unfold tier_elemsize.
  destruct (Z.eqb_spec t 1); [intros [= <-]; auto|].
  destruct (Z.eqb_spec t 2); [intros [= <-]; auto|].
  destruct (Z.eqb_spec t 3); [intros [= <-]; auto|discriminate].
Qed.

Lemma valid_inv h idx :
  valid h idx = true ->
  exists sz l b,
    tier_elemsize (tag idx) = Some sz /\ data (u idx) = Some l
    /\ blocks h !! l = Some b /\ blk_elemsize b = sz
    /\ Z.of_nat (length (blk_cells b)) = dim0_size (u idx)
    /\ 0 < blk_rc b
    /\ forallb (in_range sz) (blk_cells b) = true.
Proof.
  unfold valid. intros Hv.
  destruct (tier_elemsize (tag idx)) as [sz|]; [|discriminate].
  destruct (data (u idx)) as [l|]; [|discriminate].
  destruct (blocks h !! l) as [b|] eqn:Hl; [|discriminate].
  apply andb_prop in Hv as [Hv H4]. apply andb_prop in Hv as [Hv H3].
  apply andb_prop in Hv as [H1 H2].
  apply Z.eqb_eq in H1, H2. apply Z.ltb_lt in H3.
  exists sz, l, b. repeat split; assumption.
Qed.

Lemma valid_intro h idx sz l b :
  tier_elemsize (tag idx) = Some sz -> data (u idx) = Some l ->
  blocks h !! l = Some b -> blk_elemsize b = sz ->
  Z.of_nat (length (blk_cells b)) = dim0_size (u idx) ->
  0 < blk_rc b ->
  forallb (in_range sz) (blk_cells b) = true ->
  valid h idx = true.
Proof.
  intros Ht Hd Hl Hsz Hlen Hrc Hall. unfold valid.
  rewrite Ht, Hd, Hl, Hall, Hsz, Z.eqb_refl.
  destruct (Z.eqb_spec (Z.of_nat (length (blk_cells b))) (dim0_size (u idx)));
    [|lia].
  destruct (Z.ltb_spec 0 (blk_rc b)); [reflexivity|lia].
Qed.

Lemma load_at sz l b h i v :
  blocks h !! l = Some b -> blk_elemsize b = sz -> 0 <= i ->
  blk_cells b !! Z.to_nat i = Some v ->
  load sz (Ptr (Some l) i) h = Some (v, h).
Proof.
  intros Hl Hsz Hi Hv. unfold load; cbn [p_base p_off].
  rewrite Hl, Hsz, Z.eqb_refl.
  destruct (Z.leb_spec 0 i); [|lia]. cbn [andb]. now rewrite Hv.
Qed.

Lemma store_at sz l b h i v :
  blocks h !! l = Some b -> blk_elemsize b = sz ->
  0 <= i < Z.of_nat (length (blk_cells b)) ->
  store sz (Ptr (Some l) i) v h
  = Some (tt, set_block l
                (Block (blk_rc b) sz (<[Z.to_nat i := v]> (blk_cells b))) h).
Proof.
  intros Hl Hsz Hi. unfold store; cbn [p_base p_off].
  rewrite Hl, Hsz, Z.eqb_refl.
  destruct (Z.leb_spec 0 i); [|lia].
  destruct (Z.ltb_spec i (Z.of_nat (length (blk_cells b)))); [|lia].
  reflexivity.
Qed.

Lemma chkidx_true (a : fx_arr_t) i :
  0 <= i < dim0_size a -> FX_CHKIDX1 a i = true.
Proof.
  intros Hi. unfold FX_CHKIDX1.
  destruct (Z.leb_spec 0 i); [|lia].
  destruct (Z.ltb_spec i (dim0_size a)); [reflexivity|lia].
Qed.

Lemma chkidx_false (a : fx_arr_t) i :
  i < 0 \/ dim0_size a <= i -> FX_CHKIDX1 a i = false.
Proof.
  intros Hi. unfold FX_CHKIDX1.
  destruct (Z.leb_spec 0 i); [|reflexivity].
  destruct (Z.ltb_spec i (dim0_size a)); [lia|reflexivity].
Qed.

(** [get] inside the bounds returns the element, whatever the tier. *)
Lemma get_in_bounds h idx sz l b i res v :
  tier_elemsize (tag idx) = Some sz -> data (u idx) = Some l ->
  blocks h !! l = Some b -> blk_elemsize b = sz ->
  0 <= i < dim0_size (u idx) ->
  blk_cells b !! Z.to_nat i = Some v ->
  get idx i res h = Some ((FX_OK, v), h).
Proof.
  intros Ht Hd Hl Hsz Hi Hv. unfold get, FX_PTR_1D.
  rewrite chkidx_true, Hd by assumption.
  destruct (tier_cases _ _ Ht) as [[-> E]|[[-> E]|[-> E]]];
    cbn [Z.eqb Pos.eqb]; rewrite bind_run;
    rewrite (load_at _ l b h i v) by (try assumption; try lia; congruence);
    reflexivity.
Qed.

(** [set] inside the bounds overwrites the element with the narrowed value. *)
Lemma set_in_bounds h idx sz l b i v :
  tier_elemsize (tag idx) = Some sz -> data (u idx) = Some l ->
  blocks h !! l = Some b -> blk_elemsize b = sz ->
  Z.of_nat (length (blk_cells b)) = dim0_size (u idx) ->
  0 <= i < dim0_size (u idx) ->
  set idx i v h
  = Some (FX_OK,
          set_block l (Block (blk_rc b) sz
                         (<[Z.to_nat i := tier_cast (tag idx) v]> (blk_cells b)))
                    h).
Proof.
  intros Ht Hd Hl Hsz Hlen Hi. unfold set, FX_PTR_1D, tier_cast.
  rewrite chkidx_true, Hd by assumption.
  destruct (tier_cases _ _ Ht) as [[-> E]|[[-> E]|[-> E]]];
    cbn [Z.eqb Pos.eqb]; rewrite bind_run;
    rewrite (store_at _ l b h i) by (try assumption; try lia; congruence);
    rewrite E; reflexivity.
Qed.

(** Outside the bounds both calls fail and change nothing. *)
Lemma get_out_of_bounds h idx sz i res :
  tier_elemsize (tag idx) = Some sz ->
  i < 0 \/ dim0_size (u idx) <= i ->
  get idx i res h = Some ((FX_EXN_OutOfRangeError, res), h).
Proof.
  intros Ht Hi. unfold get. rewrite chkidx_false by assumption.
  destruct (tier_cases _ _ Ht) as [[-> E]|[[-> E]|[-> E]]]; reflexivity.
Qed.

Lemma set_out_of_bounds h idx sz i v :
  tier_elemsize (tag idx) = Some sz ->
  i < 0 \/ dim0_size (u idx) <= i ->
  set idx i v h = Some (FX_EXN_OutOfRangeError, h).
Proof.
  intros Ht Hi. unfold set. rewrite chkidx_false by assumption.
  destruct (tier_cases _ _ Ht) as [[-> E]|[[-> E]|[-> E]]]; reflexivity.
Qed.

(** *** Copying *)

Lemma fx_copy_arr_at l n b h :
  blocks h !! l = Some b ->
  fx_copy_arr (Arr (Some l) n) h
  = Some (Arr (Some l) n,
          set_block l (Block (blk_rc b + 1) (blk_elemsize b) (blk_cells b)) h).
Proof. intros Hl. unfold fx_copy_arr; cbn [data]. now rewrite Hl. Qed.

Lemma FX_FREE_ARR_at l n b h :
  blocks h !! l = Some b -> blk_rc b - 1 <> 0 ->
  FX_FREE_ARR (Arr (Some l) n) h
  = Some (tt, set_block l
                (Block (blk_rc b - 1) (blk_elemsize b) (blk_cells b)) h).
Proof.
  intros Hl Hrc. unfold FX_FREE_ARR; cbn [data]. rewrite Hl.
  destruct (Z.eqb_spec (blk_rc b - 1) 0); [lia|reflexivity].
Qed.

Lemma set_block_dom l b h :
  is_Some (blocks h !! l) -> dom (blocks (set_block l b h)) = dom (blocks h).
Proof.
  intros Hl. unfold set_block; cbn [blocks]. now apply dom_insert_lookup_L.
Qed.

Lemma fresh_not_live (h : heap) l :
  is_Some (blocks h !! l) -> l <> fresh (dom (blocks h)).
Proof.
  intros Hl ->. apply elem_of_dom in Hl. now apply is_fresh in Hl.
Qed.

Lemma fmap_lookup_seq (cells : list Z) :
  ((fun j : nat => default 0 (cells !! j)) <$> seq 0 (length cells)) = cells.
Proof.
  apply list_eq; intros j. rewrite list_lookup_fmap.
  destruct (Nat.lt_ge_cases j (length cells)) as [Hj|Hj].
  - rewrite lookup_seq_lt by assumption. simpl.
    destruct (lookup_lt_is_Some_2 cells j Hj) as [v ->]. reflexivity.
  - rewrite lookup_seq_ge by assumption. simpl.
    symmetry. now apply lookup_ge_None.
Qed.

Lemma copy_tier_ok sz t con ls n b res h :
  (forall a, con a = (a' ← fx_copy_arr a; mret (Index t a'))) ->
  blocks h !! ls = Some b -> blk_elemsize b = sz ->
  Z.of_nat (length (blk_cells b)) = n ->
  0 < blk_rc b ->
  n * sz <= mem_left h ->
  copy_tier sz con (Arr (Some ls) n) res h
  = Some ((FX_OK, Index t (Arr (Some (fresh (dom (blocks h)))) n)),
          set_block (fresh (dom (blocks h))) (Block 1 sz (blk_cells b))
                    (charge (n * sz) h)).
Proof.
  intros Hcon Hl Hsz Hlen Hrc Hmem.
  assert (Hne : ls <> fresh (dom (blocks h))) by (apply fresh_not_live; eauto).
  unfold copy_tier.
  step_with (fx_copy_arr_at ls n b h Hl).
  cbn [FX_ARR_SIZE FX_PTR_1D data dim0_size].
  step_by fx_make_arr_ok ltac:(cbn [mem_left set_block]; lia).
  rewrite set_block_dom by eauto.
  cbn [succeeded data junk set_block].
  set (ld := fresh (dom (blocks h))) in *.
  fold (set_block ls (Block (blk_rc b + 1) (blk_elemsize b) (blk_cells b)) h).
  set (h1 := charge (n * sz) _).
  assert (Hl1 : blocks h1 !! ls
                = Some (Block (blk_rc b + 1) (blk_elemsize b) (blk_cells b))).
  { subst h1. unfold charge; cbn [blocks]. apply set_block_lookup. }
  rewrite bind_run.
  rewrite (for_loop_fill_all _ (fun j => default 0 (blk_cells b !! j))).
  2:{ rewrite length_replicate. reflexivity. }
  2:{ intros j cs Hj Hcs. rewrite bind_run.
      unfold ptr_at; cbn [p_base p_off]. change (0 + Z.of_nat j) with (Z.of_nat j).
      destruct (lookup_lt_is_Some_2 (blk_cells b) j) as [v Hv]; [lia|].
      rewrite (load_at sz ls (Block (blk_rc b + 1) (blk_elemsize b) (blk_cells b))
                 _ (Z.of_nat j) v).
      - now rewrite Hv.
      - rewrite set_block_lookup_ne by congruence. exact Hl1.
      - exact Hsz.
      - lia.
      - now rewrite Nat2Z.id. }
  cbv beta iota.
  replace (Z.to_nat n) with (length (blk_cells b)) by lia.
  rewrite fmap_lookup_seq, Hcon.
  rewrite bind_run; step_with fx_copy_arr_live.
  unfold mret, M_ret; cbv beta iota.
  rewrite bind_run, (FX_FREE_ARR_at ls n
                       (Block (blk_rc b + 1) (blk_elemsize b) (blk_cells b))).
  2:{ rewrite set_block_lookup_ne by congruence. exact Hl1. }
  2:{ cbn [blk_rc]. lia. }
  cbv beta iota. cbn [blk_rc blk_elemsize blk_cells].
  rewrite bind_run, (FX_FREE_ARR_at ld n (Block (1 + 1) sz (blk_cells b))).
  2:{ rewrite set_block_lookup_ne by congruence. apply set_block_lookup. }
  2:{ cbn [blk_rc]. lia. }
  cbv beta iota. cbn [blk_rc blk_elemsize blk_cells].
  do 2 f_equal. apply heap_eq; [|reflexivity|reflexivity].
  subst h1. unfold set_block, charge; cbn [blocks].
  replace (blk_rc b + 1 - 1) with (blk_rc b) by lia.
  apply map_eq; intros k.
  destruct (decide (k = ld)) as [->|Hk].
  - now rewrite !lookup_insert_eq.
  - rewrite !(lookup_insert_ne _ ld) by congruence.
    destruct (decide (k = ls)) as [->|Hk'].
    + rewrite lookup_insert_eq, Hl. destruct b; reflexivity.
    + rewrite !lookup_insert_ne by congruence. reflexivity.
Qed.

Lemma copy_tier_exhausted sz con ls n b res h :
  blocks h !! ls = Some b ->
  Z.of_nat (length (blk_cells b)) = n ->
  0 < blk_rc b ->
  mem_left h < n * sz ->
  copy_tier sz con (Arr (Some ls) n) res h
  = Some ((FX_EXN_OutOfMemError, res), h).
Proof.
  intros Hl Hlen Hrc Hmem. unfold copy_tier.
  step_with (fx_copy_arr_at ls n b h Hl).
  cbn [FX_ARR_SIZE FX_PTR_1D data dim0_size].
  step_by fx_make_arr_exhausted ltac:(cbn [mem_left set_block]; lia).
  cbn [succeeded].
  rewrite bind_run, (FX_FREE_ARR_at ls n
                       (Block (blk_rc b + 1) (blk_elemsize b) (blk_cells b))).
  2:{ apply set_block_lookup. }
  2:{ cbn [blk_rc]. lia. }
  cbv beta iota. cbn [blk_rc blk_elemsize blk_cells].
  step_with FX_FREE_ARR_null. unfold mret, M_ret.
  rewrite set_block_twice.
  replace (blk_rc b + 1 - 1) with (blk_rc b) by lia.
  rewrite set_block_id; [reflexivity|]. rewrite Hl. now destruct b.
Qed.

(** [copy] of a valid container, when the allocator can serve the request:
    the result is a container of the same tag and length over a new block
    that holds the same elements; no other block changes. *)
Lemma copy_ok h a res sz l b :
  tier_elemsize (tag a) = Some sz -> data (u a) = Some l ->
  blocks h !! l = Some b -> blk_elemsize b = sz ->
  Z.of_nat (length (blk_cells b)) = dim0_size (u a) ->
  0 < blk_rc b ->
  dim0_size (u a) * sz <= mem_left h ->
  copy a res h
  = Some ((FX_OK,
           Index (tag a) (Arr (Some (fresh (dom (blocks h)))) (dim0_size (u a)))),
          set_block (fresh (dom (blocks h))) (Block 1 sz (blk_cells b))
                    (charge (dim0_size (u a) * sz) h)).
Proof.
  intros Ht Hd Hl Hsz Hlen Hrc Hmem. unfold copy.
  destruct a as [t [d n]]; cbn [tag u data dim0_size] in *. subst d.
  destruct (tier_cases _ _ Ht) as [[-> E]|[[-> E]|[-> E]]];
    cbn [Z.eqb Pos.eqb]; rewrite <- E;
    apply (copy_tier_ok sz _ _ l n b); auto.
Qed.

Lemma copy_exhausted h a res sz l b :
  tier_elemsize (tag a) = Some sz -> data (u a) = Some l ->
  blocks h !! l = Some b ->
  Z.of_nat (length (blk_cells b)) = dim0_size (u a) ->
  0 < blk_rc b ->
  mem_left h < dim0_size (u a) * sz ->
  copy a res h = Some ((FX_EXN_OutOfMemError, res), h).
Proof.
  intros Ht Hd Hl Hlen Hrc Hmem. unfold copy.
  destruct a as [t [d n]]; cbn [tag u data dim0_size] in *. subst d.
  destruct (tier_cases _ _ Ht) as [[-> E]|[[-> E]|[-> E]]];
    cbn [Z.eqb Pos.eqb]; rewrite <- E;
    apply (copy_tier_exhausted sz _ l n b); auto.
Qed.

(** *** Validity is preserved *)

Lemma valid_frame h h' c :
  (forall l, data (u c) = Some l -> blocks h' !! l = blocks h !! l) ->
  valid h' c = valid h c.
Proof.
  intros Hsame. unfold valid.
  destruct (tier_elemsize (tag c)); [|reflexivity].
  destruct (data (u c)) as [l|]; [|reflexivity].
  now rewrite (Hsame l eq_refl).
Qed.

Lemma valid_live h c l :
  valid h c = true -> data (u c) = Some l -> is_Some (blocks h !! l).
Proof.
  intros Hv Hd. destruct (valid_inv _ _ Hv) as (sz & l' & b & _ & Hd' & Hl & _).
  rewrite Hd in Hd'. injection Hd' as <-. eauto.
Qed.

(** A block allocated at a fresh address disturbs no valid container. *)
Lemma valid_alloc h c b m :
  valid h c = true ->
  valid (set_block (fresh (dom (blocks h))) b (charge m h)) c = true.
Proof.
  intros Hv. rewrite <- Hv. apply valid_frame. intros l Hd.
  rewrite set_block_lookup_ne; [reflexivity|]. intros <-.
  now apply (fresh_not_live h _ (valid_live _ _ _ Hv Hd)).
Qed.

Lemma forallb_insert {A} (P : A -> bool) (l : list A) i x :
  forallb P l = true -> P x = true -> forallb P (<[i := x]> l) = true.
Proof.
  revert i; induction l as [|y l IH]; intros i Hl Hx; [assumption|].
  simpl in Hl. apply andb_prop in Hl as [Hy Hl].
  destruct i as [|i]; simpl.
  - now rewrite Hx, Hl.
  - now rewrite Hy, IH.
Qed.

Lemma forallb_replicate {A} (P : A -> bool) n x :
  P x = true -> forallb P (replicate n x) = true.
Proof. intros Hx. induction n; simpl; rewrite ?Hx; auto. Qed.

Lemma tier_cast_in_range t sz v :
  tier_elemsize t = Some sz -> in_range sz (tier_cast t v) = true.
Proof.
  intros Ht. unfold in_range, tier_cast.
  destruct (tier_cases _ _ Ht) as [[-> ->]|[[-> ->]|[-> ->]]];
    cbn [Z.eqb Pos.eqb sizeof_uint8_t sizeof_uint16_t sizeof_int_];
    try reflexivity.
  - unfold cast_uint8_t.
    pose proof (Z.mod_pos_bound v (2 ^ 8) ltac:(lia)).
    apply andb_true_intro; split; [apply Z.leb_le|apply Z.ltb_lt]; lia.
  - unfold cast_uint16_t.
    pose proof (Z.mod_pos_bound v (2 ^ 16) ltac:(lia)).
    apply andb_true_intro; split; [apply Z.leb_le|apply Z.ltb_lt]; lia.
Qed.

Lemma zero_in_range t sz : tier_elemsize t = Some sz -> in_range sz 0 = true.
Proof.
  intros Ht.
  destruct (tier_cases _ _ Ht) as [[-> ->]|[[-> ->]|[-> ->]]]; reflexivity.
Qed.

(** What a call of [set] on a valid container does to the store. *)
Lemma set_valid_cases h a i v :
  valid h a = true ->
  exists l b,
    data (u a) = Some l /\ blocks h !! l = Some b
    /\ tier_elemsize (tag a) = Some (blk_elemsize b)
    /\ Z.of_nat (length (blk_cells b)) = dim0_size (u a)
    /\ ((0 <= i < dim0_size (u a)
         /\ set a i v h
            = Some (FX_OK,
                    set_block l
                      (Block (blk_rc b) (blk_elemsize b)
                         (<[Z.to_nat i := tier_cast (tag a) v]> (blk_cells b)))
                      h))
        \/ ((i < 0 \/ dim0_size (u a) <= i)
            /\ set a i v h = Some (FX_EXN_OutOfRangeError, h))).
Proof.
  intros Hv.
  destruct (valid_inv _ _ Hv) as (sz & l & b & Ht & Hd & Hl & Hsz & Hlen & _).
  subst sz. exists l, b. repeat split; try assumption.
  destruct (Z_lt_le_dec i 0) as [Hneg|Hpos];
    [|destruct (Z_lt_le_dec i (dim0_size (u a))) as [Hlt|Hge]].
  - right. split; [lia|]. eapply set_out_of_bounds; eauto.
  - left. split; [lia|]. eapply set_in_bounds; eauto.
  - right. split; [lia|]. eapply set_out_of_bounds; eauto.
Qed.

Lemma set_preserves_valid h a c i v st h' :
  valid h a = true -> valid h c = true ->
  set a i v h = Some (st, h') ->
  valid h' c = true.
Proof.
  intros Ha Hc Hset.
  destruct (set_valid_cases h a i v Ha)
    as (l & b & Hd & Hl & Ht & Hlen & [[Hi E]|[Hi E]]);
    rewrite E in Hset; injection Hset as <- <-; [|assumption].
  destruct (valid_inv _ _ Hc)
    as (sz' & l' & b' & Ht' & Hd' & Hl' & Hsz' & Hlen' & Hrc' & Hall').
  destruct (decide (l = l')) as [<-|Hne].
  - rewrite Hl in Hl'. injection Hl' as <-.
    eapply valid_intro; eauto using set_block_lookup; cbn [blk_elemsize blk_cells blk_rc];
      try assumption.
    + now rewrite length_insert.
    + apply forallb_insert; [assumption|].
      subst sz'. now apply tier_cast_in_range.
  - rewrite <- Hc. apply valid_frame. intros l0 Hd0.
    rewrite Hd' in Hd0. injection Hd0 as <-.
    now apply set_block_lookup_ne.
Qed.

(** What a call of [get] on a valid container returns; the store is left
    as it was. *)
Lemma get_valid_cases h a i res :
  valid h a = true ->
  (exists x, 0 <= i < dim0_size (u a)
             /\ cells_of h a !! Z.to_nat i = Some x
             /\ get a i res h = Some ((FX_OK, x), h))
  \/ ((i < 0 \/ dim0_size (u a) <= i)
      /\ get a i res h = Some ((FX_EXN_OutOfRangeError, res), h)).
Proof.
  intros Hv.
  destruct (valid_inv _ _ Hv) as (sz & l & b & Ht & Hd & Hl & Hsz & Hlen & _).
  unfold cells_of. rewrite Hd, Hl.
  destruct (Z_lt_le_dec i 0) as [Hneg|Hpos];
    [|destruct (Z_lt_le_dec i (dim0_size (u a))) as [Hlt|Hge]].
  - right. split; [lia|]. eapply get_out_of_bounds; eauto.
  - left. destruct (lookup_lt_is_Some_2 (blk_cells b) (Z.to_nat i)) as [x Hx];
      [lia|].
    exists x. repeat split; try lia; try assumption.
    eapply get_in_bounds; eauto.
  - right. split; [lia|]. eapply get_out_of_bounds; eauto.
Qed.

Lemma valid_length h a :
  valid h a = true -> Z.of_nat (length (cells_of h a)) = dim0_size (u a).
Proof.
  intros Hv.
  destruct (valid_inv _ _ Hv) as (sz & l & b & _ & Hd & Hl & _ & Hlen & _).
  unfold cells_of. now rewrite Hd, Hl.
Qed.

(** [get] looks at the block of its container only. *)
Lemma get_agree a j r h h' :
  (forall l, data (u a) = Some l -> blocks h' !! l = blocks h !! l) ->
  fst <$> get a j r h' = fst <$> get a j r h.
Proof.
  intros Hsame. unfold get, FX_PTR_1D.
  assert (Hload : forall sz,
    fst <$> (x ← load sz (Ptr (data (u a)) j); mret (FX_OK, x)) h'
    = fst <$> (x ← load sz (Ptr (data (u a)) j); mret (FX_OK, x)) h).
  { intros sz. rewrite !bind_run. unfold load; cbn [p_base p_off].
    destruct (data (u a)) as [l|]; [|reflexivity].
    rewrite (Hsame l eq_refl).
    destruct (blocks h !! l) as [b|]; [|reflexivity].
    destruct ((blk_elemsize b =? sz) && (0 <=? j)); [|reflexivity].
    destruct (blk_cells b !! Z.to_nat j); reflexivity. }
  destruct (tag a =? 1); [destruct (FX_CHKIDX1 (u a) j); [apply Hload|reflexivity]|].
  destruct (tag a =? 2); [destruct (FX_CHKIDX1 (u a) j); [apply Hload|reflexivity]|].
  destruct (tag a =? 3); [destruct (FX_CHKIDX1 (u a) j); [apply Hload|reflexivity]|].
  reflexivity.
Qed.

(** The outcomes of [makeindex]: a container of the tier of the requested
    size over a fresh block of zeros, or a failure that leaves the store and
    the destination as they were. *)
Lemma makeindex_cases size_0 res h :
  (exists sz,
     0 <= size_0 /\ tier_elemsize (tier_of_size size_0) = Some sz
     /\ size_0 * sz <= mem_left h
     /\ makeindex size_0 res h
        = Some ((FX_OK,
                 Index (tier_of_size size_0)
                       (Arr (Some (fresh (dom (blocks h)))) size_0)),
                set_block (fresh (dom (blocks h)))
                  (Block 1 sz (replicate (Z.to_nat size_0) 0))
                  (charge (size_0 * sz) h)))
  \/ (exists st, succeeded st = false
                 /\ makeindex size_0 res h = Some ((st, res), h)).
Proof.
  destruct (Z_lt_le_dec size_0 0) as [Hneg|Hpos].
  { right. exists FX_EXN_SizeError. split; [reflexivity|].
    now apply makeindex_negative. }
  destruct (tier_of_size_elemsize size_0) as (sz & Hsz & _).
  destruct (Z_lt_le_dec (mem_left h) (size_0 * sz)) as [Hfull|Hroom].
  - right. exists FX_EXN_OutOfMemError. split; [reflexivity|].
    now apply (makeindex_exhausted _ _ sz).
  - left. exists sz. repeat split; try assumption.
    now apply makeindex_ok.
Qed.

(** The outcomes of [copy] on a valid container. *)
Lemma copy_cases h a res :
  valid h a = true ->
  exists sz l b,
    tier_elemsize (tag a) = Some sz /\ data (u a) = Some l
    /\ blocks h !! l = Some b
    /\ forallb (in_range sz) (blk_cells b) = true
    /\ Z.of_nat (length (blk_cells b)) = dim0_size (u a)
    /\ ((dim0_size (u a) * sz <= mem_left h
         /\ copy a res h
            = Some ((FX_OK,
                     Index (tag a)
                       (Arr (Some (fresh (dom (blocks h)))) (dim0_size (u a)))),
                    set_block (fresh (dom (blocks h)))
                      (Block 1 sz (blk_cells b))
                      (charge (dim0_size (u a) * sz) h)))
        \/ copy a res h = Some ((FX_EXN_OutOfMemError, res), h)).
Proof.
  intros Hv.
  destruct (valid_inv _ _ Hv)
    as (sz & l & b & Ht & Hd & Hl & Hsz & Hlen & Hrc & Hall).
  exists sz, l, b. repeat split; try assumption.
  destruct (Z_lt_le_dec (mem_left h) (dim0_size (u a) * sz)) as [Hfull|Hroom].
  - right. eapply copy_exhausted; eauto.
  - left. split; [assumption|]. eapply copy_ok; eauto.
Qed.

(** Every container of a reachable state is valid in its store. *)
Lemma reachable_valid h cs :
  reachable h cs -> Forall (fun c => valid h c = true) cs.
Proof.
  induction 1 as [mem j
                 |h cs size_0 res st idx h' _ IH Hmk
                 |h cs a res st b h' _ IH Ha Hcp
                 |h cs a i res r h' _ IH Ha Hget
                 |h cs a i v st h' _ IH Ha Hset].
  - constructor.
  - destruct (makeindex_cases size_0 res h)
      as [(sz & Hn & Hsz & Hmem & E)|(st' & Hst & E)];
      rewrite E in Hmk; injection Hmk as <- <- <-.
    + cbn [succeeded]. constructor.
      * eapply valid_intro; eauto using set_block_lookup;
          cbn [u data dim0_size blk_elemsize blk_cells blk_rc]; try lia.
        -- rewrite length_replicate. lia.
        -- apply forallb_replicate. eapply zero_in_range; eauto.
      * eapply Forall_impl; [exact IH|]. intros c Hc. now apply valid_alloc.
    + rewrite Hst. exact IH.
  - assert (Hva : valid h a = true) by (eapply Forall_forall in IH; eauto).
    destruct (copy_cases h a res Hva)
      as (sz & l & b0 & Ht & Hd & Hl & Hall & Hlen & [[Hmem E]|E]);
      rewrite E in Hcp; injection Hcp as <- <- <-.
    + cbn [succeeded]. constructor.
      * eapply valid_intro; eauto using set_block_lookup;
          cbn [u data dim0_size blk_elemsize blk_cells blk_rc]; try lia;
          assumption.
      * eapply Forall_impl; [exact IH|]. intros c Hc. now apply valid_alloc.
    + exact IH.
  - assert (Hva : valid h a = true) by (eapply Forall_forall in IH; eauto).
    destruct (get_valid_cases h a i res Hva) as [(x & _ & _ & E)|[_ E]];
      rewrite E in Hget; injection Hget as <- <-; exact IH.
  - assert (Hva : valid h a = true) by (eapply Forall_forall in IH; eauto).
    eapply Forall_impl; [exact IH|]. intros c Hc.
    eapply set_preserves_valid; eauto.
Qed.

Lemma run_op_frame h a o :
  valid h a = true ->
  exists h',
    run_op a o h = Some (tt, h')
    /\ (forall c, valid h c = true -> valid h' c = true)
    /\ (forall l, data (u a) <> Some l -> blocks h' !! l = blocks h !! l).
Proof.
  intros Hv. destruct o as [i|i v]; unfold run_op; rewrite bind_run.
  - destruct (get_valid_cases h a i 0 Hv) as [(x & _ & _ & E)|[_ E]];
      rewrite E; exists h; auto.
  - destruct (set_valid_cases h a i v Hv)
      as (l & b & Hd & Hl & Ht & Hlen & [[Hi E]|[Hi E]]).
    + eexists. split; [rewrite E; reflexivity|]. split.
      * intros c Hc. eapply (set_preserves_valid h a c i v); eauto.
      * intros l' Hl'. apply set_block_lookup_ne. congruence.
    + rewrite E. exists h; auto.
Qed.

Lemma run_ops_frame a os :
  forall h, valid h a = true ->
  exists h',
    run_ops a os h = Some (tt, h')
    /\ (forall c, valid h c = true -> valid h' c = true)
    /\ (forall l, data (u a) <> Some l -> blocks h' !! l = blocks h !! l).
Proof.
  induction os as [|o os IH]; intros h Hv.
  - exists h. auto.
  - destruct (run_op_frame h a o Hv) as (h1 & E1 & V1 & F1).
    destruct (IH h1 (V1 a Hv)) as (h2 & E2 & V2 & F2).
    exists h2. cbn [run_ops]. rewrite bind_run, E1. split; [exact E2|].
    split; [auto|]. intros l Hl. rewrite F2, F1; auto.
Qed.

Lemma forallb_lookup {A} (P : A -> bool) (l : list A) k x :
  forallb P l = true -> l !! k = Some x -> P x = true.
Proof.
  revert k; induction l as [|y l IH]; intros k Hl Hk; [discriminate|].
  simpl in Hl. apply andb_prop in Hl as [Hy Hl].
  destruct k as [|k]; simpl in Hk; [now injection Hk as <-|eauto].
Qed.

(** A write inside the bounds, read back. *)
Lemma set_then_get h idx i v r :
  valid h idx = true -> 0 <= i < dim0_size (u idx) ->
  exists h',
    set idx i v h = Some (FX_OK, h')
    /\ get idx i r h' = Some ((FX_OK, tier_cast (tag idx) v), h')
    /\ cells_of h' idx = <[Z.to_nat i := tier_cast (tag idx) v]> (cells_of h idx).
Proof.
  intros Hv Hi.
  destruct (valid_inv _ _ Hv) as (sz & l & b & Ht & Hd & Hl & Hsz & Hlen & _).
  eexists. split; [eapply set_in_bounds; eauto|]. split.
  - eapply get_in_bounds; eauto using set_block_lookup.
    cbn [blk_cells]. apply list_lookup_insert_eq. lia.
  - unfold cells_of. now rewrite Hd, set_block_lookup, Hl.
Qed.

(** *** The properties of the design document *)

(** C1.  Construction selects the tier by the requested size: a size of at
    most 256 gives tag 1 over one-byte elements, a size above 256 and of at
    most 65536 gives tag 2 over two-byte elements, and a larger size gives
    tag 3 over elements of the native word.  Construction succeeds whenever
    the size is not negative and the allocator can serve the request. *)
Theorem makeindex_selects_tier (size_0 : Z) (res : index_t) (h : heap) :
  0 <= size_0 -> request_bytes size_0 <= mem_left h ->
  exists idx h' l b,
    makeindex size_0 res h = Some ((FX_OK, idx), h')
    /\ data (u idx) = Some l /\ blocks h' !! l = Some b
    /\ (size_0 <= 256 -> tag idx = 1 /\ blk_elemsize b = sizeof_uint8_t)
    /\ (256 < size_0 <= 65536 ->
        tag idx = 2 /\ blk_elemsize b = sizeof_uint16_t)
    /\ (65536 < size_0 -> tag idx = 3 /\ blk_elemsize b = sizeof_int_).
Proof.
  intros Hn Hmem.
  destruct (tier_of_size_elemsize size_0) as (sz & Hsz & _).
  assert (Hreq : request_bytes size_0 = size_0 * sz).
  { unfold request_bytes, tier_of_size in *.
    destruct (size_0 <=? 256); [|destruct (size_0 <=? 65536)];
      cbv in Hsz; injection Hsz as <-; reflexivity. }
  rewrite Hreq in Hmem.
  do 4 eexists. split; [now apply (makeindex_ok _ _ sz)|].
  split; [reflexivity|]. split; [apply set_block_lookup|].
  cbn [tag blk_elemsize]. unfold tier_of_size in *.
  destruct (Z.leb_spec size_0 256); [|destruct (Z.leb_spec size_0 65536)];
    cbv in Hsz; injection Hsz as <-; repeat split; try lia; reflexivity.
Qed.

(** C6.  After a successful construction with a positive size, [get]
    returns zero at every index below the size. *)
Theorem makeindex_zero_initialized size_0 res h idx h' i r :
  makeindex size_0 res h = Some ((FX_OK, idx), h') ->
  0 < size_0 -> 0 <= i < size_0 ->
  get idx i r h' = Some ((FX_OK, 0), h').
Proof.
  intros Hmk Hn Hi.
  destruct (makeindex_cases size_0 res h)
    as [(sz & _ & Hsz & Hmem & E)|(st & Hst & E)]; rewrite E in Hmk.
  2:{ injection Hmk as -> _ _. discriminate. }
  injection Hmk as <- <-.
  eapply get_in_bounds; eauto using set_block_lookup.
  cbn [blk_cells]. apply lookup_replicate_2. lia.
Qed.

(** C2.  On a valid container, [set] at an index inside the bounds followed
    by [get] at that index succeeds and returns the value narrowed to the
    element type of the tier: modulo 2^8 under tag 1, modulo 2^16 under
    tag 2, unchanged under tag 3. *)
Theorem set_get_round_trip h idx i v r :
  valid h idx = true -> 0 <= i < dim0_size (u idx) ->
  exists h' x,
    set idx i v h = Some (FX_OK, h')
    /\ get idx i r h' = Some ((FX_OK, x), h')
    /\ (tag idx = 1 -> x = v mod 2 ^ 8)
    /\ (tag idx = 2 -> x = v mod 2 ^ 16)
    /\ (tag idx = 3 -> x = v).
Proof.
  intros Hv Hi.
  destruct (set_then_get h idx i v r Hv Hi) as (h' & Hset & Hget & _).
  exists h', (tier_cast (tag idx) v). repeat split; try assumption;
    intros ->; reflexivity.
Qed.

(** C3.  Under each of the three tags, [get] and [set] at an index below
    zero or not below the length fail with the out-of-range code; the store
    is returned as it was, the destination of [get] keeps its content, and
    the header is not written to. *)
Theorem out_of_range_rejected h idx i v r :
  tag idx = 1 \/ tag idx = 2 \/ tag idx = 3 ->
  i < 0 \/ dim0_size (u idx) <= i ->
  get idx i r h = Some ((FX_EXN_OutOfRangeError, r), h)
  /\ set idx i v h = Some (FX_EXN_OutOfRangeError, h).
Proof.
  intros Ht Hi.
  assert (exists sz, tier_elemsize (tag idx) = Some sz) as [sz Hsz].
  { unfold tier_elemsize. destruct Ht as [E | [E | E]]; rewrite E; eexists; reflexivity. }
  split; [eapply get_out_of_bounds|eapply set_out_of_bounds]; eauto.
Qed.

(** C5.  Under a tag other than 1, 2 and 3 each of [size], [get], [set] and
    [copy] fails with the no-match code and changes nothing. *)
Theorem unmatched_tag_rejected h idx i v r res :
  tag idx <> 1 -> tag idx <> 2 -> tag idx <> 3 ->
  size idx r = (FX_EXN_NoMatchError, r)
  /\ get idx i r h = Some ((FX_EXN_NoMatchError, r), h)
  /\ set idx i v h = Some (FX_EXN_NoMatchError, h)
  /\ copy idx res h = Some ((FX_EXN_NoMatchError, res), h).
Proof.
  intros H1 H2 H3. unfold size, get, set, copy.
  destruct (Z.eqb_spec (tag idx) 1); [contradiction|].
  destruct (Z.eqb_spec (tag idx) 2); [contradiction|].
  destruct (Z.eqb_spec (tag idx) 3); [contradiction|].
  repeat split; reflexivity.
Qed.

(** C7.  A successful [set] on a valid container replaces element [i] of the
    block of the container and nothing else: the other elements and their
    number stay, every other block of the store stays, no block is allocated
    or released, and [get] at any other index returns what it returned
    before. *)
Theorem set_changes_one_cell h idx i v h' :
  valid h idx = true -> set idx i v h = Some (FX_OK, h') ->
  0 <= i < dim0_size (u idx)
  /\ (exists l b,
        data (u idx) = Some l /\ blocks h !! l = Some b
        /\ blocks h' !! l
           = Some (Block (blk_rc b) (blk_elemsize b)
                     (<[Z.to_nat i := tier_cast (tag idx) v]> (blk_cells b))))
  /\ cells_of h' idx = <[Z.to_nat i := tier_cast (tag idx) v]> (cells_of h idx)
  /\ length (cells_of h' idx) = length (cells_of h idx)
  /\ (forall l, data (u idx) <> Some l -> blocks h' !! l = blocks h !! l)
  /\ dom (blocks h') = dom (blocks h)
  /\ mem_left h' = mem_left h
  /\ valid h' idx = true
  /\ (forall j r, j <> i -> fst <$> get idx j r h' = fst <$> get idx j r h).
Proof.
  intros Hv Hset.
  destruct (set_valid_cases h idx i v Hv)
    as (l & b & Hd & Hl & Ht & Hlen & [[Hi E]|[Hi E]]);
    rewrite E in Hset; [|discriminate].
  injection Hset as <-.
  assert (Hc : cells_of (set_block l
                 (Block (blk_rc b) (blk_elemsize b)
                    (<[Z.to_nat i := tier_cast (tag idx) v]> (blk_cells b))) h)
                 idx
               = <[Z.to_nat i := tier_cast (tag idx) v]> (cells_of h idx)).
  { unfold cells_of. now rewrite Hd, set_block_lookup, Hl. }
  assert (Hv' : valid (set_block l
                 (Block (blk_rc b) (blk_elemsize b)
                    (<[Z.to_nat i := tier_cast (tag idx) v]> (blk_cells b))) h)
                 idx = true).
  { eapply (set_preserves_valid h idx idx i v); eauto. }
  split; [assumption|].
  split; [exists l, b; auto using set_block_lookup|].
  split; [assumption|].
  split; [rewrite Hc; apply length_insert|].
  split; [intros l' Hl'; apply set_block_lookup_ne; congruence|].
  split; [apply set_block_dom; eauto|].
  split; [reflexivity|]. split; [assumption|].
  intros j r Hj.
  destruct (get_valid_cases _ idx j r Hv') as [(x & Hjb & Hx & ->)|[Hjb ->]];
    destruct (get_valid_cases h idx j r Hv) as [(y & Hjb' & Hy & ->)|[Hjb' ->]];
    try lia; [|reflexivity].
  rewrite Hc, list_lookup_insert_ne in Hx by lia.
  rewrite Hx in Hy. now injection Hy as ->.
Qed.

Lemma size_valid idx sz r :
  tier_elemsize (tag idx) = Some sz ->
  size idx r = (FX_OK, dim0_size (u idx)).
Proof.
  intros Ht. unfold size.
  destruct (tier_cases _ _ Ht) as [[-> _]|[[-> _]|[-> _]]]; reflexivity.
Qed.

(** C8.  On a valid container [size] returns the length kept in the header,
    the same under each tag; after [makeindex] that length is the requested
    size; and after any sequence of [get] and [set] calls on the container
    it is still the number of elements the store holds for it. *)
Theorem size_is_constant h idx os r :
  valid h idx = true ->
  size idx r = (FX_OK, dim0_size (u idx))
  /\ (forall size_0 res h_pre,
        makeindex size_0 res h_pre = Some ((FX_OK, idx), h) ->
        size idx r = (FX_OK, size_0))
  /\ exists h',
       run_ops idx os h = Some (tt, h')
       /\ valid h' idx = true
       /\ size idx r = (FX_OK, Z.of_nat (length (cells_of h' idx))).
Proof.
  intros Hv.
  destruct (valid_inv _ _ Hv) as (sz & l & b & Ht & _).
  split; [eapply size_valid; eauto|]. split.
  - intros size_0 res h_pre Hmk.
    destruct (makeindex_cases size_0 res h_pre)
      as [(sz' & _ & Hsz & Hmem & E)|(st & Hst & E)]; rewrite E in Hmk.
    + injection Hmk as <- _. eapply size_valid; eauto.
    + injection Hmk as -> _ _. discriminate.
  - destruct (run_ops_frame idx os h Hv) as (h' & E & V & _).
    exists h'. split; [exact E|]. split; [auto|].
    rewrite (valid_length h' idx) by auto. eapply size_valid; eauto.
Qed.

Lemma set_other_block h a b i v st h' :
  valid h b = true -> data (u a) <> data (u b) ->
  set b i v h = Some (st, h') ->
  forall l, data (u a) = Some l -> blocks h' !! l = blocks h !! l.
Proof.
  intros Hv Hne Hset l Hl.
  destruct (set_valid_cases h b i v Hv)
    as (lb & bb & Hd & _ & _ & _ & [[_ E]|[_ E]]);
    rewrite E in Hset; injection Hset as <- <-; [|reflexivity].
  apply set_block_lookup_ne. congruence.
Qed.

(** Two valid containers over different blocks: a [set] on the second
    keeps both valid and changes no result of [get] on the first. *)
Lemma set_independent h a b i v st h' :
  valid h a = true -> valid h b = true -> data (u a) <> data (u b) ->
  set b i v h = Some (st, h') ->
  valid h' a = true /\ valid h' b = true
  /\ forall j r, fst <$> get a j r h' = fst <$> get a j r h.
Proof.
  intros Ha Hb Hne Hset.
  split; [eapply (set_preserves_valid h b a); eauto|].
  split; [eapply (set_preserves_valid h b b); eauto|].
  intros j r. apply get_agree. eapply set_other_block; eauto.
Qed.

(** C4.  A successful [copy] of a valid container returns a container of the
    same tag and length.  The source is left as it was: its block, its
    elements and every result of [get] on it are those of before the call.
    After the call [get] on the copy agrees with [get] on the source at
    every index.  The two stand on different blocks, and from then on a
    [set] on either leaves every [get] on the other as it was, in whatever
    state of the store it is made. *)
Theorem copy_is_independent h a res b h' :
  valid h a = true -> copy a res h = Some ((FX_OK, b), h') ->
  tag b = tag a
  /\ (forall r, size b r = size a r)
  /\ cells_of h' b = cells_of h a
  /\ (forall l, data (u a) = Some l -> blocks h' !! l = blocks h !! l)
  /\ cells_of h' a = cells_of h a
  /\ (forall i r, fst <$> get a i r h' = fst <$> get a i r h)
  /\ (forall i r, fst <$> get b i r h' = fst <$> get a i r h')
  /\ (forall i r, fst <$> get b i r h' = fst <$> get a i r h)
  /\ data (u b) <> data (u a)
  /\ valid h' a = true /\ valid h' b = true
  /\ (forall h1 i v st h2,
        valid h1 a = true -> valid h1 b = true ->
        set b i v h1 = Some (st, h2) ->
        valid h2 a = true /\ valid h2 b = true
        /\ forall j r, fst <$> get a j r h2 = fst <$> get a j r h1)
  /\ (forall h1 i v st h2,
        valid h1 a = true -> valid h1 b = true ->
        set a i v h1 = Some (st, h2) ->
        valid h2 a = true /\ valid h2 b = true
        /\ forall j r, fst <$> get b j r h2 = fst <$> get b j r h1).
Proof.
  intros Hv Hcp.
  destruct (copy_cases h a res Hv)
    as (sz & l & b0 & Ht & Hd & Hl & Hall & Hlen & [[Hmem E]|E]);
    rewrite E in Hcp; [|discriminate].
  injection Hcp as <- <-.
  set (ld := fresh (dom (blocks h))) in *.
  set (h' := set_block ld _ _).
  set (b := Index (tag a) (Arr (Some ld) (dim0_size (u a)))).
  assert (Hne : data (u b) <> data (u a)).
  { cbn [b u data]. rewrite Hd. intros [= <-]. eapply fresh_not_live; eauto. }
  assert (Hva : valid h' a = true) by (apply valid_alloc; assumption).
  assert (Hvb : valid h' b = true).
  { eapply valid_intro; try apply set_block_lookup;
      cbn [b tag u data dim0_size blk_elemsize blk_cells blk_rc];
      try reflexivity; try assumption; lia. }
  assert (Hcells : cells_of h' b = cells_of h a).
  { unfold cells_of; cbn [b u data]. subst h'.
    now rewrite set_block_lookup, Hd, Hl. }
  assert (Hsrc : forall l0, data (u a) = Some l0 ->
                         blocks h' !! l0 = blocks h !! l0).
  { intros l0 Hl0. subst h'. rewrite set_block_lookup_ne; [reflexivity|].
    intros <-. apply Hne. cbn [b u data]. now rewrite Hl0. }
  assert (Hcells_a : cells_of h' a = cells_of h a).
  { unfold cells_of. rewrite Hd, (Hsrc l Hd). reflexivity. }
  assert (Hget_a : forall i r, fst <$> get a i r h' = fst <$> get a i r h).
  { intros i r. now apply get_agree. }
  assert (Hget_b : forall i r, fst <$> get b i r h' = fst <$> get a i r h).
  { intros i r.
    destruct (get_valid_cases h' b i r Hvb) as [(x & Hi & Hx & ->)|[Hi ->]];
      destruct (get_valid_cases h a i r Hv) as [(y & Hi' & Hy & ->)|[Hi' ->]];
      cbn [b u dim0_size] in *; try lia; [|reflexivity].
    rewrite Hcells, Hy in Hx. now injection Hx as ->. }
  split; [reflexivity|]. split; [reflexivity|]. split; [assumption|].
  split; [assumption|]. split; [assumption|]. split; [assumption|].
  split; [intros i r; now rewrite Hget_a|]. split; [assumption|].
  split; [assumption|]. split; [assumption|]. split; [assumption|].
  split; intros h1 i v st h2 Ha1 Hb1 Hset.
  - eapply set_independent; eauto.
  - destruct (set_independent h1 b a i v st h2) as (V1 & V2 & G); auto.
Qed.

(** C10.  In every state reached by constructing, copying, reading and
    writing containers, a successful [get] returns a value between 0 and 255
    under tag 1 and between 0 and 65535 under tag 2; and a [set] of any
    value, negative ones included, followed by [get] at the same index
    returns the residue of the value modulo 2^8, respectively 2^16, which is
    not negative. *)
Theorem reachable_cells_in_range h cs a i r x h' :
  reachable h cs -> a ∈ cs ->
  get a i r h = Some ((FX_OK, x), h') ->
  (tag a = 1 -> 0 <= x <= 255)
  /\ (tag a = 2 -> 0 <= x <= 65535)
  /\ (forall v h1 y h2,
        set a i v h = Some (FX_OK, h1) ->
        get a i r h1 = Some ((FX_OK, y), h2) ->
        (tag a = 1 -> y = v mod 2 ^ 8 /\ 0 <= y <= 255)
        /\ (tag a = 2 -> y = v mod 2 ^ 16 /\ 0 <= y <= 65535)).
Proof.
  intros Hreach Ha Hget.
  assert (Hv : valid h a = true).
  { pose proof (reachable_valid _ _ Hreach) as HF.
    rewrite Forall_forall in HF. now apply HF. }
  destruct (valid_inv _ _ Hv)
    as (sz & l & b & Ht & Hd & Hl & Hsz & Hlen & Hrc & Hall).
  destruct (get_valid_cases h a i r Hv) as [(x' & Hi & Hx & E)|[Hi E]];
    rewrite E in Hget; [|discriminate].
  injection Hget as <- <-.
  unfold cells_of in Hx. rewrite Hd, Hl in Hx.
  pose proof (forallb_lookup _ _ _ _ Hall Hx) as Hr.
  split; [|split].
  - intros T. rewrite T in Ht. injection Ht as <-.
    cbv [in_range sizeof_uint8_t Z.eqb Pos.eqb] in Hr.
    apply andb_prop in Hr as [H1 H2].
    apply Z.leb_le in H1. apply Z.ltb_lt in H2. lia.
  - intros T. rewrite T in Ht. injection Ht as <-.
    cbv [in_range sizeof_uint8_t sizeof_uint16_t Z.eqb Pos.eqb] in Hr.
    apply andb_prop in Hr as [H1 H2].
    apply Z.leb_le in H1. apply Z.ltb_lt in H2. lia.
  - intros v h1 y h2 Hset Hget'.
    destruct (set_then_get h a i v r Hv Hi) as (h1' & E1 & E2 & _).
    rewrite E1 in Hset. injection Hset as <-.
    rewrite E2 in Hget'. injection Hget' as <- _.
    unfold tier_cast, cast_uint8_t, cast_uint16_t.
    split; intros T; rewrite T; cbn [Z.eqb Pos.eqb].
    + pose proof (Z.mod_pos_bound v (2 ^ 8) ltac:(lia)). lia.
    + pose proof (Z.mod_pos_bound v (2 ^ 16) ltac:(lia)). lia.
Qed.

(** *** The properties at concrete containers *)

(** The sizes the design document lists, each side of the two thresholds. *)
Example makeindex_listed_sizes :
  Forall (fun n =>
            exists idx h',
              makeindex n no_index (Heap ∅ (10 ^ 9) 0) = Some ((FX_OK, idx), h')
              /\ tag idx
                 = if n <=? 256 then 1 else if n <=? 65536 then 2 else 3)
         [0; 1; 256; 257; 65536; 65537; 10000000].
Proof.
  repeat constructor;
    (do 2 eexists; split;
     [ eapply makeindex_ok; [lia | reflexivity | vm_compute; discriminate]
     | reflexivity ]).
Qed.

(** The scenario of the design document: a container of 300 elements. *)
Example medium_scenario :
  exists idx h1,
    makeindex 300 no_index empty_store = Some ((FX_OK, idx), h1)
    /\ tag idx = 2
    /\ (exists h2, set idx 299 65000 h1 = Some (FX_OK, h2)
                   /\ get idx 299 0 h2 = Some ((FX_OK, 65000), h2))
    /\ (exists h3, set idx 299 70000 h1 = Some (FX_OK, h3)
                   /\ get idx 299 0 h3 = Some ((FX_OK, 4464), h3))
    /\ get idx 300 0 h1 = Some ((FX_EXN_OutOfRangeError, 0), h1).
Proof.
  do 2 eexists. split; [vm_compute; reflexivity|].
  split; [reflexivity|].
  split; [eexists; split; vm_compute; reflexivity|].
  split; [eexists; split; vm_compute; reflexivity|].
  vm_compute; reflexivity.
Qed.

Example narrow_truncates :
  exists h', set narrow_index 0 300 zero_store = Some (FX_OK, h')
             /\ get narrow_index 0 0 h' = Some ((FX_OK, 44), h').
Proof. eexists; split; vm_compute; reflexivity. Qed.

Lemma makeindex_selects_tier_witness :
  0 <= 257 /\ request_bytes 257 <= mem_left empty_store
  /\ exists idx h' l b,
       makeindex 257 no_index empty_store = Some ((FX_OK, idx), h')
       /\ data (u idx) = Some l /\ blocks h' !! l = Some b
       /\ (257 <= 256 -> tag idx = 1 /\ blk_elemsize b = sizeof_uint8_t)
       /\ (256 < 257 <= 65536 ->
           tag idx = 2 /\ blk_elemsize b = sizeof_uint16_t)
       /\ (65536 < 257 -> tag idx = 3 /\ blk_elemsize b = sizeof_int_).
Proof.
  split; [lia|]. split; [vm_compute; discriminate|].
  apply (makeindex_selects_tier 257 no_index empty_store);
    [lia | vm_compute; discriminate].
Defined.

Lemma makeindex_zero_initialized_witness :
  makeindex 4 no_index empty_store = Some ((FX_OK, narrow_index), zero_store)
  /\ 0 < 4 /\ 0 <= 2 < 4
  /\ get narrow_index 2 9 zero_store = Some ((FX_OK, 0), zero_store).
Proof.
  split; [vm_compute; reflexivity|]. split; [lia|]. split; [lia|].
  apply (makeindex_zero_initialized 4 no_index empty_store);
    [vm_compute; reflexivity | lia | lia].
Defined.

Lemma set_get_round_trip_witness :
  valid narrow_store narrow_index = true
  /\ 0 <= 1 < dim0_size (u narrow_index)
  /\ exists h' x,
       set narrow_index 1 300 narrow_store = Some (FX_OK, h')
       /\ get narrow_index 1 9 h' = Some ((FX_OK, x), h')
       /\ (tag narrow_index = 1 -> x = 300 mod 2 ^ 8)
       /\ (tag narrow_index = 2 -> x = 300 mod 2 ^ 16)
       /\ (tag narrow_index = 3 -> x = 300).
Proof.
  split; [vm_compute; reflexivity|]. split; [simpl; lia|].
  apply (set_get_round_trip narrow_store narrow_index 1 300 9);
    [vm_compute; reflexivity | simpl; lia].
Defined.

Lemma out_of_range_rejected_witness :
  (tag narrow_index = 1 \/ tag narrow_index = 2 \/ tag narrow_index = 3)
  /\ (4 < 0 \/ dim0_size (u narrow_index) <= 4)
  /\ get narrow_index 4 9 narrow_store
     = Some ((FX_EXN_OutOfRangeError, 9), narrow_store)
  /\ set narrow_index 4 5 narrow_store
     = Some (FX_EXN_OutOfRangeError, narrow_store).
Proof.
  split; [left; reflexivity|].
  split; [right; simpl; lia|].
  apply (out_of_range_rejected narrow_store narrow_index 4 5 9);
    [left; reflexivity | right; simpl; lia].
Defined.

Lemma unmatched_tag_rejected_witness :
  tag no_index <> 1 /\ tag no_index <> 2 /\ tag no_index <> 3
  /\ size no_index 9 = (FX_EXN_NoMatchError, 9)
  /\ get no_index 0 9 narrow_store = Some ((FX_EXN_NoMatchError, 9), narrow_store)
  /\ set no_index 0 5 narrow_store = Some (FX_EXN_NoMatchError, narrow_store)
  /\ copy no_index narrow_index narrow_store
     = Some ((FX_EXN_NoMatchError, narrow_index), narrow_store).
Proof.
  split; [simpl; lia|]. split; [simpl; lia|]. split; [simpl; lia|].
  apply (unmatched_tag_rejected narrow_store no_index 0 5 9 narrow_index);
    simpl; lia.
Defined.

Lemma set_changes_one_cell_witness :
  valid narrow_store narrow_index = true
  /\ set narrow_index 1 300 narrow_store = Some (FX_OK, written_store)
  /\ 0 <= 1 < dim0_size (u narrow_index)
  /\ (exists l b,
        data (u narrow_index) = Some l /\ blocks narrow_store !! l = Some b
        /\ blocks written_store !! l
           = Some (Block (blk_rc b) (blk_elemsize b)
                     (<[Z.to_nat 1 := tier_cast (tag narrow_index) 300]>
                        (blk_cells b))))
  /\ cells_of written_store narrow_index
     = <[Z.to_nat 1 := tier_cast (tag narrow_index) 300]>
         (cells_of narrow_store narrow_index)
  /\ length (cells_of written_store narrow_index)
     = length (cells_of narrow_store narrow_index)
  /\ (forall l, data (u narrow_index) <> Some l ->
                blocks written_store !! l = blocks narrow_store !! l)
  /\ dom (blocks written_store) = dom (blocks narrow_store)
  /\ mem_left written_store = mem_left narrow_store
  /\ valid written_store narrow_index = true
  /\ (forall j r, j <> 1 ->
        fst <$> get narrow_index j r written_store
        = fst <$> get narrow_index j r narrow_store).
Proof.
  split; [vm_compute; reflexivity|]. split; [vm_compute; reflexivity|].
  apply (set_changes_one_cell narrow_store narrow_index 1 300 written_store);
    vm_compute; reflexivity.
Defined.

Lemma size_is_constant_witness :
  valid narrow_store narrow_index = true
  /\ size narrow_index 9 = (FX_OK, dim0_size (u narrow_index))
  /\ (forall size_0 res h_pre,
        makeindex size_0 res h_pre = Some ((FX_OK, narrow_index), narrow_store) ->
        size narrow_index 9 = (FX_OK, size_0))
  /\ exists h',
       run_ops narrow_index [OpSet 1 300; OpGet 2; OpSet 9 1] narrow_store
       = Some (tt, h')
       /\ valid h' narrow_index = true
       /\ size narrow_index 9
          = (FX_OK, Z.of_nat (length (cells_of h' narrow_index))).
Proof.
  split; [vm_compute; reflexivity|].
  apply (size_is_constant narrow_store narrow_index
           [OpSet 1 300; OpGet 2; OpSet 9 1] 9).
  vm_compute; reflexivity.
Defined.

Lemma copy_is_independent_witness :
  valid narrow_store narrow_index = true
  /\ copy narrow_index no_index narrow_store
     = Some ((FX_OK, narrow_copy), copied_store)
  /\ tag narrow_copy = tag narrow_index
  /\ (forall r, size narrow_copy r = size narrow_index r)
  /\ cells_of copied_store narrow_copy = cells_of narrow_store narrow_index
  /\ (forall l, data (u narrow_index) = Some l ->
                blocks copied_store !! l = blocks narrow_store !! l)
  /\ cells_of copied_store narrow_index = cells_of narrow_store narrow_index
  /\ (forall i r, fst <$> get narrow_index i r copied_store
                  = fst <$> get narrow_index i r narrow_store)
  /\ (forall i r, fst <$> get narrow_copy i r copied_store
                  = fst <$> get narrow_index i r copied_store)
  /\ (forall i r, fst <$> get narrow_copy i r copied_store
                  = fst <$> get narrow_index i r narrow_store)
  /\ data (u narrow_copy) <> data (u narrow_index)
  /\ valid copied_store narrow_index = true
  /\ valid copied_store narrow_copy = true
  /\ (forall h1 i v st h2,
        valid h1 narrow_index = true -> valid h1 narrow_copy = true ->
        set narrow_copy i v h1 = Some (st, h2) ->
        valid h2 narrow_index = true /\ valid h2 narrow_copy = true
        /\ forall j r, fst <$> get narrow_index j r h2
                       = fst <$> get narrow_index j r h1)
  /\ (forall h1 i v st h2,
        valid h1 narrow_index = true -> valid h1 narrow_copy = true ->
        set narrow_index i v h1 = Some (st, h2) ->
        valid h2 narrow_index = true /\ valid h2 narrow_copy = true
        /\ forall j r, fst <$> get narrow_copy j r h2
                       = fst <$> get narrow_copy j r h1).
Proof.
  split; [vm_compute; reflexivity|]. split; [vm_compute; reflexivity|].
  apply (copy_is_independent narrow_store narrow_index no_index
           narrow_copy copied_store);
    vm_compute; reflexivity.
Defined.

Lemma minus_one_store_reachable : reachable minus_one_store [narrow_index].
Proof.
  apply (reach_set zero_store [narrow_index] narrow_index 1 (-1) FX_OK).
  - apply (reach_makeindex empty_store [] 4 no_index FX_OK narrow_index).
    + apply reach_init.
    + vm_compute; reflexivity.
  - apply list_elem_of_here.
  - vm_compute; reflexivity.
Defined.

Lemma reachable_cells_in_range_witness :
  reachable minus_one_store [narrow_index]
  /\ narrow_index ∈ [narrow_index]
  /\ get narrow_index 1 9 minus_one_store
     = Some ((FX_OK, 255), minus_one_store)
  /\ (tag narrow_index = 1 -> 0 <= 255 <= 255)
  /\ (tag narrow_index = 2 -> 0 <= 255 <= 65535)
  /\ (forall v h1 y h2,
        set narrow_index 1 v minus_one_store = Some (FX_OK, h1) ->
        get narrow_index 1 9 h1 = Some ((FX_OK, y), h2) ->
        (tag narrow_index = 1 -> y = v mod 2 ^ 8 /\ 0 <= y <= 255)
        /\ (tag narrow_index = 2 -> y = v mod 2 ^ 16 /\ 0 <= y <= 65535)).
Proof.
  split; [exact minus_one_store_reachable|].
  split; [apply list_elem_of_here|].
  split; [vm_compute; reflexivity|].
  apply (reachable_cells_in_range minus_one_store [narrow_index]
           narrow_index 1 9 255 minus_one_store);
    [exact minus_one_store_reachable | apply list_elem_of_here
    | vm_compute; reflexivity].
Defined.

End HashmapProperties.

(** ** Properties of the line reader *)

Module FileProperties.
Import File.

(** *** The loop returns *)

Lemma to_int_id z : - 2 ^ 31 <= z < 2 ^ 31 -> to_int z = z.
Proof.
  intros Hz. unfold to_int. rewrite Z.mod_small; lia.
Qed.

Lemma fgets_chars_length n s chunk rest stopped :
  fgets_chars n s = (chunk, rest, stopped) ->
  (length chunk <= n)%nat /\ length s = (length chunk + length rest)%nat.
Proof.
  revert s chunk rest stopped.
  induction n as [|n IH]; intros s chunk rest stopped; cbn [fgets_chars].
  - intros [= <- <- <-]. simpl. lia.
  - destruct s as [|c s]; [intros [= <- <- <-]; simpl; lia|].
    destruct (Ascii.eqb c newline); [intros [= <- <- <-]; simpl; lia|].
    destruct (fgets_chars n s) as [[l r] st] eqn:E.
    intros [= <- <- <-]. destruct (IH _ _ _ _ E). simpl. lia.
Qed.

Lemma strlen_bounds s : 0 <= strlen s <= Z.of_nat (length s).
Proof.
  induction s as [|c s IH]; cbn [strlen length]; [lia|].
  destruct (Ascii.eqb c NUL); lia.
Qed.

(** What [fgets] hands back is no longer than the room it was given, and it
    is taken off the stream. *)
Lemma fgets_some count f chunk f' :
  fgets count f = (Some chunk, f') ->
  (length chunk <= Z.to_nat (count - 1))%nat
  /\ length (pending f) = (length chunk + length (pending f'))%nat.
Proof.
  unfold fgets.
  destruct (eof_indicator f); [discriminate|].
  destruct (fgets_chars (Z.to_nat (count - 1)) (pending f))
    as [[l r] st] eqn:E.
  destruct (fgets_chars_length _ _ _ _ _ E) as [H1 H2].
  destruct st.
  - intros [= <- <-]. cbn [pending]. auto.
  - assert (r = []) as ->.
    { clear H1 H2. revert E. generalize (Z.to_nat (count - 1)) as n.
      intros n. revert l r. generalize (pending f) as s.
      induction n as [|n IH]; intros s l r; cbn [fgets_chars];
        [discriminate|].
      destruct s as [|c s]; [now intros [= <- <-]|].
      destruct (Ascii.eqb c newline); [discriminate|].
      destruct (fgets_chars n s) as [[l' r'] st'] eqn:E'.
      intros [= <- <- ->]. eauto. }
    destruct (ending f); [|discriminate].
    destruct l; [discriminate|].
    intros [= <- <-]. cbn [pending]. auto.
Qed.

(** With one more iteration than pending characters the loop of [fx_fgets]
    comes to an end, as long as the line is short enough for the buffer size
    to stay within [int]. *)
Lemma fx_fgets_loop_returns fuel :
  forall mem f bufsz bufofs buf,
    (length (pending f) < fuel)%nat ->
    128 <= bufsz -> 0 <= bufofs -> 4 * bufofs + 4 <= 3 * bufsz ->
    bufsz + 2 * Z.of_nat (length (pending f)) < 2 ^ 31 ->
    is_Some (fx_fgets_loop fuel mem f bufsz bufofs buf).
Proof.
  induction fuel as [|fuel IH]; intros mem f bufsz bufofs buf Hfuel Hsz Hofs Hinv
    Hbound; [lia|].
  cbn [fx_fgets_loop].
  rewrite to_int_id by lia.
  destruct (Z.gtb_spec (bufsz - bufofs) INT_MAX) as [Hbig|_];
    [unfold INT_MAX in Hbig; lia|].
  destruct (fgets (bufsz - bufofs) f) as [[chunk|] f'] eqn:E.
  2:{ destruct (negb (feof f')); eauto. }
  destruct (fgets_some _ _ _ _ E) as [Hlen Hrest].
  pose proof (strlen_bounds chunk) as Hstr.
  rewrite to_int_id by lia.
  destruct (Z.ltb_spec (strlen chunk) (bufsz - bufofs - 1)) as [_|Hfull];
    [eauto|].
  assert (Hblk : strlen chunk = bufsz - bufofs - 1) by lia.
  destruct (Z.ltb_spec (bufsz - (bufofs + strlen chunk)) 16) as [_|Hroom];
    [|lia].
  destruct (fx_realloc mem (Z.quot (bufsz * 3) 2)); [|eauto].
  assert (Hq : 2 * Z.quot (bufsz * 3) 2 <= 3 * bufsz
               /\ 3 * bufsz - 1 <= 2 * Z.quot (bufsz * 3) 2).
  { rewrite Z.quot_div_nonneg by lia.
    pose proof (Z.div_mod (bufsz * 3) 2 ltac:(lia)).
    pose proof (Z.mod_pos_bound (bufsz * 3) 2 ltac:(lia)). lia. }
  apply IH; lia.
Qed.

(** [fx_fgets] returns on every stream of less than 2^30 - 64 characters. *)
Lemma fx_fgets_returns mem f str :
  Z.of_nat (length (pending f)) < 2 ^ 30 - 64 ->
  is_Some (fx_fgets mem f str).
Proof.
  intros Hlen. unfold fx_fgets.
  destruct (fx_fgets_loop_returns (S (length (pending f))) mem f
              FX_FILE_ROW_BUFSIZE 0 []) as [[[[st ofs] buf] f'] ->];
    unfold FX_FILE_ROW_BUFSIZE; try lia.
  destruct (succeeded st); [|eauto].
  destruct (fx_cstr2str buf ofs); eauto.
Qed.

(** A line that does not fill the block is returned alone. *)
Example fx_fgets_short_line :
  fx_fgets 4096
    (MkFile ["a"; "b"; newline; "c"; "d"; newline]%char EndOfFile false) []
  = Some (FX_OK, ["a"; "b"; newline]%char,
          MkFile ["c"; "d"; newline]%char EndOfFile false).
Proof. vm_compute. reflexivity. Qed.

(** A read failure gives the I/O error and leaves the destination alone. *)
Example fx_fgets_read_error :
  fx_fgets 4096 (MkFile ["a"; "b"]%char ReadError false) ["z"%char]
  = Some (FX_EXN_IOError, ["z"%char], MkFile [] ReadError false).
Proof. vm_compute. reflexivity. Qed.

(** A line longer than the buffer with no memory to grow into gives the
    out-of-memory error. *)
Example fx_fgets_out_of_memory :
  fst <$> fx_fgets 100
            (MkFile (replicate 200 "a"%char ++ [newline]) EndOfFile false)
            ["z"%char]
  = Some (FX_EXN_OutOfMemError, ["z"%char]).
Proof. vm_compute. reflexivity. Qed.

(** C9.  The design document has [fx_fgets] read up to a newline.  On a
    stream whose first line, newline included, is 127 characters long, the
    call succeeds and returns that line together with the next one: the
    newline arrives as the last character the first [fgets] has room for,
    [blocksz < count - 1] does not hold, and the loop reads on. *)
Theorem fx_fgets_reads_past_newline :
  fx_fgets 4096 two_lines []
  = Some (FX_OK, full_block_line ++ ["b"%char; newline],
          MkFile [] EndOfFile false)
  /\ first_line (pending two_lines) = full_block_line
  /\ full_block_line ++ ["b"%char; newline] <> first_line (pending two_lines).
Proof.
  split; [vm_compute; reflexivity|].
  split; [vm_compute; reflexivity|].
  vm_compute. intros H. discriminate H.
Qed.

End FileProperties.

(** ** Construction, copying and disposal over the store *)

Module HashmapLifetime.
Import Hashmap HashmapProperties.

Lemma request_bytes_tier n sz :
  tier_elemsize (tier_of_size n) = Some sz -> request_bytes n = n * sz.
Proof.
  unfold request_bytes, tier_of_size.
  destruct (n <=? 256); [|destruct (n <=? 65536)];
    intros Hsz; cbv in Hsz; injection Hsz as <-; reflexivity.
Qed.

(** X1.  [makeindex] never runs into undefined behaviour.  It calls the
    allocator once, for the requested number of elements of the element size
    of the tier, and returns the status of that call.  When the call fails,
    the destination is handed back as it was received and the store is as
    the allocator left it.  When it succeeds, the result is a valid container
    of the tier over the array the allocator returned, and the allocator is
    charged nothing further. *)
Theorem makeindex_all_or_nothing size_0 res h :
  exists sz st arr h1 idx h',
    tier_elemsize (tier_of_size size_0) = Some sz
    /\ fx_make_arr size_0 sz h = Some ((st, arr), h1)
    /\ makeindex size_0 res h = Some ((st, idx), h')
    /\ (succeeded st = false -> idx = res /\ h' = h1)
    /\ (succeeded st = true ->
        tag idx = tier_of_size size_0 /\ u idx = arr
        /\ valid h' idx = true /\ mem_left h' = mem_left h1).
Proof.
  destruct (tier_of_size_elemsize size_0) as (sz & Hsz & _).
  exists sz.
  destruct (Z_lt_le_dec size_0 0) as [Hneg|Hpos].
  { exists FX_EXN_SizeError, fx_arr_null, h, res, h.
    split; [assumption|]. split; [now apply fx_make_arr_negative|].
    split; [now apply makeindex_negative|].
    split; [auto|discriminate]. }
  destruct (Z_lt_le_dec (mem_left h) (size_0 * sz)) as [Hfull|Hroom].
  { exists FX_EXN_OutOfMemError, fx_arr_null, h, res, h.
    split; [assumption|]. split; [now apply fx_make_arr_exhausted|].
    split; [now apply (makeindex_exhausted _ _ sz)|].
    split; [auto|discriminate]. }
  pose proof (makeindex_ok size_0 res sz h Hpos Hsz Hroom) as E.
  do 5 eexists.
  split; [assumption|]. split; [now apply fx_make_arr_ok|].
  split; [exact E|]. split; [discriminate|]. intros _.
  split; [reflexivity|]. split; [reflexivity|].
  split; [|reflexivity].
  eapply valid_intro; eauto using set_block_lookup;
    cbn [u data dim0_size blk_elemsize blk_cells blk_rc]; try lia.
  - rewrite length_replicate. lia.
  - apply forallb_replicate. eapply zero_in_range; eauto.
Qed.

(** X2.  A successful [makeindex] allocates one block at an address that was not
    in use, holds the only reference to it, charges the allocator the bytes
    of the request and leaves every other block as it was. *)
Theorem makeindex_allocates_one_block size_0 res h idx h' :
  makeindex size_0 res h = Some ((FX_OK, idx), h') ->
  exists l b,
    data (u idx) = Some l /\ blocks h !! l = None
    /\ blocks h' !! l = Some b /\ blk_rc b = 1
    /\ block_bytes b = request_bytes size_0
    /\ (forall l', l' <> l -> blocks h' !! l' = blocks h !! l')
    /\ mem_left h' = mem_left h - request_bytes size_0.
Proof.
  intros Hmk.
  destruct (makeindex_cases size_0 res h)
    as [(sz & Hn & Hsz & Hmem & E)|(st & Hst & E)]; rewrite E in Hmk.
  2:{ injection Hmk as -> _ _. discriminate. }
  injection Hmk as <- <-.
  rewrite (request_bytes_tier _ _ Hsz).
  exists (fresh (dom (blocks h))), (Block 1 sz (replicate (Z.to_nat size_0) 0)).
  split; [reflexivity|].
  split; [apply not_elem_of_dom, is_fresh|].
  split; [apply set_block_lookup|]. split; [reflexivity|].
  split; [unfold block_bytes; cbn [blk_cells blk_elemsize];
          now rewrite length_replicate, Z2Nat.id|].
  split; [|reflexivity].
  intros l' Hl'. rewrite set_block_lookup_ne by congruence. reflexivity.
Qed.

(** X3.  [copy] of a valid container never runs into undefined behaviour.  When
    the allocator can serve the bytes of the source it succeeds, allocates one
    block with a single reference and leaves every other block, the source
    and its reference count included, as it was; otherwise it fails with the
    out-of-memory code and hands back the destination and the store as it
    received them: the reference it took on the source is given back. *)
Theorem copy_all_or_nothing h a res sz :
  valid h a = true -> tier_elemsize (tag a) = Some sz ->
  exists st b h',
    copy a res h = Some ((st, b), h')
    /\ ((st = FX_OK /\ dim0_size (u a) * sz <= mem_left h
         /\ exists l nb,
              data (u b) = Some l /\ blocks h !! l = None
              /\ blocks h' !! l = Some nb /\ blk_rc nb = 1
              /\ block_bytes nb = dim0_size (u a) * sz
              /\ (forall l', l' <> l -> blocks h' !! l' = blocks h !! l')
              /\ mem_left h' = mem_left h - dim0_size (u a) * sz)
        \/ (st = FX_EXN_OutOfMemError
            /\ mem_left h < dim0_size (u a) * sz /\ b = res /\ h' = h)).
Proof.
  intros Hv Hsz.
  destruct (copy_cases h a res Hv)
    as (sz' & l & b0 & Ht & Hd & Hl & Hall & Hlen & Hcases).
  rewrite Hsz in Ht. injection Ht as <-.
  destruct (Z_lt_le_dec (mem_left h) (dim0_size (u a) * sz)) as [Hfull|Hroom].
  - destruct (valid_inv _ _ Hv)
      as (sz' & l' & b' & Ht' & Hd' & Hl' & _ & Hlen' & Hrc' & _).
    rewrite Hsz in Ht'. injection Ht' as <-.
    do 3 eexists. split; [now apply (copy_exhausted h a res sz l' b')|].
    right. auto.
  - destruct Hcases as [[_ E]|E].
    2:{ exfalso. destruct (valid_inv _ _ Hv)
          as (sz' & l' & b' & Ht' & Hd' & Hl' & Hsz' & Hlen' & Hrc' & _).
        rewrite Hsz in Ht'. injection Ht' as <-.
        rewrite (copy_ok h a res sz l' b') in E; auto. discriminate. }
    do 3 eexists. split; [exact E|]. left.
    split; [reflexivity|]. split; [assumption|].
    exists (fresh (dom (blocks h))), (Block 1 sz (blk_cells b0)).
    split; [reflexivity|].
    split; [apply not_elem_of_dom, is_fresh|].
    split; [apply set_block_lookup|]. split; [reflexivity|].
    split; [unfold block_bytes; cbn [blk_cells blk_elemsize]; now rewrite Hlen|].
    split; [|reflexivity].
    intros l' Hl'. rewrite set_block_lookup_ne by congruence. reflexivity.
Qed.

(** *** Disposal and sharing of a valid handle *)

Lemma free_valid h a :
  valid h a = true ->
  exists l b,
    data (u a) = Some l /\ blocks h !! l = Some b /\ 0 < blk_rc b
    /\ _fx_free_N16Hashmap__index_t a h
       = Some (Index 0 (Arr None (dim0_size (u a))),
               if blk_rc b - 1 =? 0 then
                 Heap (delete l (blocks h)) (mem_left h + block_bytes b) (junk h)
               else
                 set_block l
                   (Block (blk_rc b - 1) (blk_elemsize b) (blk_cells b)) h).
Proof.
  intros Hv.
  destruct (valid_inv _ _ Hv) as (sz & l & b & Ht & Hd & Hl & _ & _ & Hrc & _).
  exists l, b. repeat split; try assumption.
  unfold _fx_free_N16Hashmap__index_t, fx_free_arr.
  assert (E : FX_FREE_ARR (u a) h
              = Some (tt, if blk_rc b - 1 =? 0 then
                            Heap (delete l (blocks h))
                                 (mem_left h + block_bytes b) (junk h)
                          else
                            set_block l
                              (Block (blk_rc b - 1) (blk_elemsize b)
                                     (blk_cells b)) h)).
  { unfold FX_FREE_ARR. rewrite Hd, Hl.
    destruct (blk_rc b - 1 =? 0); reflexivity. }
  destruct (tier_cases _ _ Ht) as [[-> _]|[[-> _]|[-> _]]];
    cbn [Z.eqb Pos.eqb]; rewrite bind_run, bind_run, E; reflexivity.
Qed.

Lemma share_valid h a :
  valid h a = true ->
  exists l b,
    data (u a) = Some l /\ blocks h !! l = Some b /\ 0 < blk_rc b
    /\ _fx_copy_N16Hashmap__index_t a h
       = Some (a, set_block l
                    (Block (blk_rc b + 1) (blk_elemsize b) (blk_cells b)) h).
Proof.
  intros Hv.
  destruct (valid_inv _ _ Hv) as (sz & l & b & Ht & Hd & Hl & _ & _ & Hrc & _).
  exists l, b. repeat split; try assumption.
  unfold _fx_copy_N16Hashmap__index_t.
  destruct a as [t [d n]]; cbn [tag u data dim0_size] in *. subst d.
  destruct (tier_cases _ _ Ht) as [[-> _]|[[-> _]|[-> _]]];
    cbn [Z.eqb Pos.eqb]; rewrite bind_run, (fx_copy_arr_at l n b h Hl);
    reflexivity.
Qed.

(** A handle over a block it holds the only reference to: disposing of it
    releases the block and gives its bytes back. *)
Lemma free_sole_owner h idx l b :
  valid h idx = true -> data (u idx) = Some l ->
  blocks h !! l = Some b -> blk_rc b = 1 ->
  _fx_free_N16Hashmap__index_t idx h
  = Some (Index 0 (Arr None (dim0_size (u idx))),
          Heap (delete l (blocks h)) (mem_left h + block_bytes b) (junk h)).
Proof.
  intros Hv Hd Hl Hrc.
  destruct (free_valid h idx Hv) as (l' & b' & Hd' & Hl' & _ & E).
  rewrite Hd in Hd'. injection Hd' as <-.
  rewrite Hl in Hl'. injection Hl' as <-.
  rewrite E, Hrc. reflexivity.
Qed.

Lemma makeindex_valid size_0 res h idx h' :
  makeindex size_0 res h = Some ((FX_OK, idx), h') -> valid h' idx = true.
Proof.
  intros Hmk.
  destruct (makeindex_cases size_0 res h)
    as [(sz & Hn & Hsz & Hmem & E)|(st & Hst & E)]; rewrite E in Hmk.
  2:{ injection Hmk as -> _ _. discriminate. }
  injection Hmk as <- <-.
  eapply valid_intro; eauto using set_block_lookup;
    cbn [u data dim0_size blk_elemsize blk_cells blk_rc]; try lia.
  - rewrite length_replicate. lia.
  - apply forallb_replicate. eapply zero_in_range; eauto.
Qed.

Lemma copy_valid h a res b h' :
  valid h a = true -> copy a res h = Some ((FX_OK, b), h') ->
  valid h' b = true.
Proof.
  intros Hv Hcp.
  destruct (copy_cases h a res Hv)
    as (sz & l & b0 & Ht & Hd & Hl & Hall & Hlen & [[Hmem E]|E]);
    rewrite E in Hcp; [|discriminate].
  injection Hcp as <- <-.
  eapply valid_intro; eauto using set_block_lookup;
    cbn [u data dim0_size blk_elemsize blk_cells blk_rc]; try lia; assumption.
Qed.

(** Disposing of the only handle on a block that was allocated at a fresh
    address takes the store back to what it was before the allocation. *)
Lemma free_fresh_block h idx b :
  data (u idx) = Some (fresh (dom (blocks h))) -> blk_rc b = 1 ->
  valid (set_block (fresh (dom (blocks h))) b (charge (block_bytes b) h)) idx
  = true ->
  _fx_free_N16Hashmap__index_t idx
    (set_block (fresh (dom (blocks h))) b (charge (block_bytes b) h))
  = Some (Index 0 (Arr None (dim0_size (u idx))), h).
Proof.
  intros Hd Hrc Hv.
  set (lf := fresh (dom (blocks h))) in *.
  assert (Hnew : blocks h !! lf = None) by apply not_elem_of_dom, is_fresh.
  rewrite (free_sole_owner _ idx lf b Hv Hd (set_block_lookup _ _ _) Hrc).
  do 2 f_equal.
  apply heap_eq; unfold set_block, charge; cbn [blocks mem_left junk];
    [|lia|reflexivity].
  now apply delete_insert_id.
Qed.

(** X4.  Construction followed by disposal: the store is exactly what it was
    before the container was made, block by block and byte by byte, and the
    handle is left with tag 0 and a null array. *)
Theorem makeindex_then_free size_0 res h idx h1 :
  makeindex size_0 res h = Some ((FX_OK, idx), h1) ->
  exists idx',
    _fx_free_N16Hashmap__index_t idx h1 = Some (idx', h)
    /\ tag idx' = 0 /\ data (u idx') = None.
Proof.
  intros Hmk.
  pose proof (makeindex_valid _ _ _ _ _ Hmk) as Hv.
  destruct (makeindex_cases size_0 res h)
    as [(sz & Hn & Hsz & Hmem & E)|(st & Hst & E)]; rewrite E in Hmk.
  2:{ injection Hmk as -> _ _. discriminate. }
  injection Hmk as <- <-.
  exists (Index 0 (Arr None size_0)). split; [|split; reflexivity].
  set (b := Block 1 sz (replicate (Z.to_nat size_0) 0)) in *.
  assert (Hb : size_0 * sz = block_bytes b).
  { unfold block_bytes, b; cbn [blk_cells blk_elemsize].
    now rewrite length_replicate, Z2Nat.id. }
  rewrite Hb in *. now rewrite free_fresh_block.
Qed.

(** X5.  Copying followed by disposal of the copy: the store is exactly what
    it was before the copy was made. *)
Theorem copy_then_free h a res b h1 :
  valid h a = true -> copy a res h = Some ((FX_OK, b), h1) ->
  exists b',
    _fx_free_N16Hashmap__index_t b h1 = Some (b', h)
    /\ tag b' = 0 /\ data (u b') = None.
Proof.
  intros Hv Hcp.
  pose proof (copy_valid h a res b h1 Hv Hcp) as Hvb.
  destruct (copy_cases h a res Hv)
    as (sz & l & b0 & Ht & Hd & Hl & Hall & Hlen & [[Hmem E]|E]);
    rewrite E in Hcp; [|discriminate].
  injection Hcp as <- <-.
  exists (Index 0 (Arr None (dim0_size (u a)))). split; [|split; reflexivity].
  set (nb := Block 1 sz (blk_cells b0)) in *.
  assert (Hb : dim0_size (u a) * sz = block_bytes nb).
  { unfold block_bytes, nb; cbn [blk_cells blk_elemsize]. now rewrite Hlen. }
  rewrite Hb in *. now rewrite free_fresh_block.
Qed.

(** X6.  Whatever handle is disposed of, the handle that comes back has tag 0:
    [size], [get], [set] and [copy] on it fail with the no-match code
    without looking at the store, and disposing of it or sharing it again
    does nothing. *)
Theorem freed_handle_is_dead h a a' h' :
  _fx_free_N16Hashmap__index_t a h = Some (a', h') ->
  tag a' = 0
  /\ forall h2 i v r res,
       size a' r = (FX_EXN_NoMatchError, r)
       /\ get a' i r h2 = Some ((FX_EXN_NoMatchError, r), h2)
       /\ set a' i v h2 = Some (FX_EXN_NoMatchError, h2)
       /\ copy a' res h2 = Some ((FX_EXN_NoMatchError, res), h2)
       /\ _fx_free_N16Hashmap__index_t a' h2 = Some (a', h2)
       /\ _fx_copy_N16Hashmap__index_t a' h2 = Some (a', h2).
Proof.
  intros Hfree.
  assert (exists x, a' = Index 0 x) as [x ->].
  { revert Hfree. unfold _fx_free_N16Hashmap__index_t.
    assert (Hbr : (a0 ← fx_free_arr (u a); mret (Index 0 a0)) h
                  = Some (a', h') -> exists x, a' = Index 0 x).
    { rewrite bind_run. destruct (fx_free_arr (u a) h) as [[x hx]|];
        [|discriminate].
      intros [= <- _]. eauto. }
    destruct (tag a =? 1); [exact Hbr|].
    destruct (tag a =? 2); [exact Hbr|].
    destruct (tag a =? 3); [exact Hbr|].
    intros [= <- _]. eauto. }
  split; [reflexivity|]. intros h2 i v r res. repeat split; reflexivity.
Qed.

(** X7.  Sharing a valid handle gives a handle over the same block, and disposing
    of that handle again leaves the store exactly as it was before the
    sharing, the reference count included. *)
Theorem share_then_free h a :
  valid h a = true ->
  exists b h1 b',
    _fx_copy_N16Hashmap__index_t a h = Some (b, h1)
    /\ tag b = tag a /\ u b = u a
    /\ valid h1 a = true /\ valid h1 b = true
    /\ cells_of h1 b = cells_of h a
    /\ _fx_free_N16Hashmap__index_t b h1 = Some (b', h)
    /\ tag b' = 0.
Proof.
  intros Hv.
  destruct (share_valid h a Hv) as (l & b & Hd & Hl & Hrc & E).
  set (h1 := set_block l (Block (blk_rc b + 1) (blk_elemsize b) (blk_cells b)) h)
    in *.
  assert (Hv1 : valid h1 a = true).
  { destruct (valid_inv _ _ Hv)
      as (sz & l' & b0 & Ht & Hd' & Hl' & Hsz & Hlen & _ & Hall).
    rewrite Hd in Hd'. injection Hd' as <-.
    rewrite Hl in Hl'. injection Hl' as <-.
    eapply valid_intro; eauto using set_block_lookup;
      cbn [blk_elemsize blk_cells blk_rc]; try assumption; lia. }
  destruct (free_valid h1 a Hv1) as (l' & b1 & Hd' & Hl' & _ & E').
  rewrite Hd in Hd'. injection Hd' as <-.
  unfold h1 in Hl'. rewrite set_block_lookup in Hl'. injection Hl' as <-.
  cbn [blk_rc blk_elemsize blk_cells] in E'.
  destruct (Z.eqb_spec (blk_rc b + 1 - 1) 0) as [|_]; [lia|].
  exists a, h1, (Index 0 (Arr None (dim0_size (u a)))).
  split; [exact E|]. split; [reflexivity|]. split; [reflexivity|].
  split; [assumption|]. split; [assumption|].
  split; [unfold cells_of, h1; now rewrite Hd, set_block_lookup, Hl|].
  split; [|reflexivity].
  rewrite E'. do 2 f_equal. unfold h1. rewrite set_block_twice.
  replace (blk_rc b + 1 - 1) with (blk_rc b) by lia.
  apply set_block_id. rewrite Hl. now destruct b.
Qed.

(** *** Reference counts and bytes in every reachable state *)

Lemma refs_app l cs1 cs2 : refs l (cs1 ++ cs2) = refs l cs1 + refs l cs2.
Proof.
  induction cs1 as [|c cs1 IH]; cbn [refs app]; [reflexivity|].
  rewrite IH. lia.
Qed.

Lemma refs_nonneg l cs : 0 <= refs l cs.
Proof.
  induction cs as [|c cs IH]; cbn [refs]; [lia|].
  destruct (decide (data (u c) = Some l)); lia.
Qed.

Lemma refs_elem l cs a :
  a ∈ cs -> data (u a) = Some l -> 1 <= refs l cs.
Proof.
  intros Ha Hd. induction Ha as [a cs|a c cs _ IH]; cbn [refs].
  - pose proof (refs_nonneg l cs).
    destruct (decide (data (u a) = Some l)); [lia|contradiction].
  - specialize (IH Hd). destruct (decide (data (u c) = Some l)); lia.
Qed.

Lemma refs_none l cs :
  (forall c, c ∈ cs -> data (u c) <> Some l) -> refs l cs = 0.
Proof.
  induction cs as [|c cs IH]; intros Hno; cbn [refs]; [reflexivity|].
  destruct (decide (data (u c) = Some l)) as [Hd|_].
  - exfalso. apply (Hno c); [apply list_elem_of_here|assumption].
  - rewrite IH; [reflexivity|]. intros c' Hc'. apply Hno.
    now apply list_elem_of_further.
Qed.

Lemma allocated_insert_new (m : gmap loc block) l b :
  m !! l = None -> allocated (<[l := b]> m) = block_bytes b + allocated m.
Proof.
  intros Hl. unfold allocated.
  rewrite map_fold_insert_L; [reflexivity| |assumption].
  intros. lia.
Qed.

Lemma allocated_delete (m : gmap loc block) l b :
  m !! l = Some b -> allocated m = block_bytes b + allocated (delete l m).
Proof.
  intros Hl. unfold allocated.
  rewrite (map_fold_delete_L _ _ l b m); [reflexivity| |assumption].
  intros. lia.
Qed.

Lemma allocated_replace (m : gmap loc block) l b b' :
  m !! l = Some b -> block_bytes b' = block_bytes b ->
  allocated (<[l := b']> m) = allocated m.
Proof.
  intros Hl Hb.
  rewrite <- insert_delete_eq.
  rewrite allocated_insert_new by apply lookup_delete_eq.
  rewrite (allocated_delete m l b Hl). lia.
Qed.

(** The validity of a container does not depend on the reference count of
    its block, as long as the count stays positive. *)
Lemma valid_recount h c l b rc :
  blocks h !! l = Some b -> 0 < blk_rc b -> 0 < rc ->
  valid (set_block l (Block rc (blk_elemsize b) (blk_cells b)) h) c
  = valid h c.
Proof.
  intros Hl Hrc Hrc'. unfold valid.
  destruct (tier_elemsize (tag c)) as [sz|]; [|reflexivity].
  destruct (data (u c)) as [l'|]; [|reflexivity].
  destruct (decide (l = l')) as [<-|Hne].
  - rewrite set_block_lookup, Hl. cbn [blk_elemsize blk_cells blk_rc].
    destruct (Z.ltb_spec 0 rc); [|lia].
    destruct (Z.ltb_spec 0 (blk_rc b)); [reflexivity|lia].
  - now rewrite set_block_lookup_ne.
Qed.

(** A new block at a fresh address, with one reference held by a new
    handle. *)
Lemma world_inv_alloc mem0 h cs c b :
  world_inv mem0 h cs ->
  data (u c) = Some (fresh (dom (blocks h))) ->
  blk_rc b = 1 ->
  valid (set_block (fresh (dom (blocks h))) b (charge (block_bytes b) h)) c
  = true ->
  world_inv mem0
    (set_block (fresh (dom (blocks h))) b (charge (block_bytes b) h))
    (c :: cs).
Proof.
  intros (J1 & J2 & J3) Hd Hrc Hvc.
  set (lf := fresh (dom (blocks h))) in *.
  assert (Hnew : blocks h !! lf = None) by apply not_elem_of_dom, is_fresh.
  assert (Hno : forall c', c' ∈ cs -> data (u c') <> Some lf).
  { intros c' Hc' Hd'.
    destruct (valid_live h c' lf (J1 c' Hc') Hd') as [b' Hb'].
    congruence. }
  split; [|split].
  - intros c' Hc'. apply elem_of_cons in Hc' as [->|Hc']; [assumption|].
    apply valid_alloc. auto.
  - intros l b' Hl. cbn [refs].
    destruct (decide (l = lf)) as [->|Hne].
    + rewrite set_block_lookup in Hl. injection Hl as <-.
      rewrite (refs_none lf cs Hno).
      destruct (decide (data (u c) = Some lf)); [lia|contradiction].
    + rewrite set_block_lookup_ne in Hl by congruence.
      destruct (J2 l b' Hl) as [Hp He].
      destruct (decide (data (u c) = Some l)); [congruence|lia].
  - unfold set_block, charge; cbn [blocks mem_left].
    rewrite allocated_insert_new by assumption. lia.
Qed.

(** One more handle on the block of a handle of the state. *)
Lemma world_inv_share mem0 h cs a l b :
  world_inv mem0 h cs -> a ∈ cs ->
  data (u a) = Some l -> blocks h !! l = Some b ->
  world_inv mem0
    (set_block l (Block (blk_rc b + 1) (blk_elemsize b) (blk_cells b)) h)
    (a :: cs).
Proof.
  intros (J1 & J2 & J3) Ha Hd Hl.
  destruct (J2 l b Hl) as [Hp He].
  split; [|split].
  - intros c Hc. rewrite valid_recount by (try eassumption; lia).
    apply elem_of_cons in Hc as [->|Hc]; auto.
  - intros l' b' Hl'. cbn [refs].
    destruct (decide (l' = l)) as [->|Hne].
    + rewrite set_block_lookup in Hl'. injection Hl' as <-.
      cbn [blk_rc]. destruct (decide (data (u a) = Some l)); [lia|contradiction].
    + rewrite set_block_lookup_ne in Hl' by congruence.
      destruct (J2 l' b' Hl').
      destruct (decide (data (u a) = Some l')); [congruence|lia].
  - unfold set_block; cbn [blocks mem_left].
    rewrite (allocated_replace _ l b) by (try assumption; reflexivity).
    assumption.
Qed.

(** One handle fewer: the block loses a reference, and goes when it was the
    last. *)
Lemma world_inv_free mem0 h cs1 a cs2 l b :
  world_inv mem0 h (cs1 ++ a :: cs2) ->
  data (u a) = Some l -> blocks h !! l = Some b ->
  world_inv mem0
    (if blk_rc b - 1 =? 0 then
       Heap (delete l (blocks h)) (mem_left h + block_bytes b) (junk h)
     else set_block l (Block (blk_rc b - 1) (blk_elemsize b) (blk_cells b)) h)
    (cs1 ++ cs2).
Proof.
  intros (J1 & J2 & J3) Hd Hl.
  destruct (J2 l b Hl) as [Hp He].
  assert (Hrefs : forall l',
            refs l' (cs1 ++ a :: cs2)
            = refs l' (cs1 ++ cs2)
              + if decide (data (u a) = Some l') then 1 else 0).
  { intros l'. rewrite !refs_app. cbn [refs]. lia. }
  assert (Hsub : forall c, c ∈ cs1 ++ cs2 -> c ∈ cs1 ++ a :: cs2).
  { intros c Hc. apply elem_of_app in Hc as [Hc|Hc];
      apply elem_of_app; [left|right; apply list_elem_of_further];
      assumption. }
  pose proof (Hrefs l) as Hrl.
  destruct (decide (data (u a) = Some l)) as [_|]; [|contradiction].
  destruct (Z.eqb_spec (blk_rc b - 1) 0) as [Hlast|Hmore].
  - assert (Hno : forall c, c ∈ cs1 ++ cs2 -> data (u c) <> Some l).
    { intros c Hc Hdc. pose proof (refs_elem l _ c Hc Hdc). lia. }
    split; [|split].
    + intros c Hc. rewrite <- (J1 c (Hsub c Hc)). apply valid_frame.
      intros l' Hd'. cbn [blocks]. apply lookup_delete_ne.
      intros <-. now apply (Hno c Hc).
    + intros l' b' Hl'. cbn [blocks] in Hl'.
      destruct (decide (l' = l)) as [->|Hne];
        [now rewrite lookup_delete_eq in Hl'|].
      rewrite lookup_delete_ne in Hl' by congruence.
      destruct (J2 l' b' Hl') as [Hp' He']. split; [assumption|].
      rewrite He', Hrefs.
      destruct (decide (data (u a) = Some l')); [congruence|lia].
    + cbn [blocks mem_left]. rewrite (allocated_delete _ l b Hl) in J3. lia.
  - split; [|split].
    + intros c Hc. rewrite valid_recount by (try eassumption; lia). auto.
    + intros l' b' Hl'.
      destruct (decide (l' = l)) as [->|Hne].
      * rewrite set_block_lookup in Hl'. injection Hl' as <-. cbn [blk_rc]. lia.
      * rewrite set_block_lookup_ne in Hl' by congruence.
        destruct (J2 l' b' Hl') as [Hp' He']. split; [assumption|].
        rewrite He', Hrefs.
        destruct (decide (data (u a) = Some l')); [congruence|lia].
    + unfold set_block; cbn [blocks mem_left].
      rewrite (allocated_replace _ l b) by (try assumption; reflexivity).
      assumption.
Qed.

(** A [set] on a handle of the state. *)
Lemma world_inv_set mem0 h cs a i v st h' :
  world_inv mem0 h cs -> a ∈ cs ->
  set a i v h = Some (st, h') ->
  world_inv mem0 h' cs.
Proof.
  intros (J1 & J2 & J3) Ha Hset.
  pose proof (J1 a Ha) as Hv.
  destruct (set_valid_cases h a i v Hv)
    as (l & b & Hd & Hl & Ht & Hlen & [[Hi E]|[Hi E]]);
    rewrite E in Hset; injection Hset as <- <-;
    [|exact (conj J1 (conj J2 J3))].
  split; [|split].
  - intros c Hc. eapply (set_preserves_valid h a c i v); eauto.
  - intros l' b' Hl'.
    destruct (decide (l' = l)) as [->|Hne].
    + rewrite set_block_lookup in Hl'. injection Hl' as <-. cbn [blk_rc]. auto.
    + rewrite set_block_lookup_ne in Hl' by congruence. auto.
  - unfold set_block; cbn [blocks mem_left].
    rewrite (allocated_replace _ l b); try assumption.
    unfold block_bytes; cbn [blk_cells blk_elemsize].
    now rewrite length_insert.
Qed.

Lemma world_keeps_inv mem0 h cs : world mem0 h cs -> world_inv mem0 h cs.
Proof.
  induction 1 as [j
                 |h cs size_0 res st idx h' _ IH Hmk
                 |h cs a res st b h' _ IH Ha Hcp
                 |h cs a b h' _ IH Ha Hsh
                 |h cs1 a cs2 a' h' _ IH Hfr
                 |h cs a i res r h' _ IH Ha Hget
                 |h cs a i v st h' _ IH Ha Hset].
  - split; [|split].
    + intros c Hc. now apply elem_of_nil in Hc.
    + intros l b Hl. cbn [blocks] in Hl. now rewrite lookup_empty in Hl.
    + cbn [blocks mem_left]. unfold allocated. rewrite map_fold_empty. lia.
  - destruct (makeindex_cases size_0 res h)
      as [(sz & Hn & Hsz & Hmem & E)|(st' & Hst & E)].
    + pose proof Hmk as Hmk'. rewrite E in Hmk'.
      injection Hmk' as <- <- <-. cbn [succeeded].
      rewrite E in Hmk. pose proof (makeindex_valid _ _ _ _ _ E) as Hv.
      set (b := Block 1 sz (replicate (Z.to_nat size_0) 0)) in *.
      assert (Hb : size_0 * sz = block_bytes b).
      { unfold block_bytes, b; cbn [blk_cells blk_elemsize].
        now rewrite length_replicate, Z2Nat.id. }
      rewrite Hb in *. now apply world_inv_alloc.
    + rewrite E in Hmk. injection Hmk as <- <- <-. now rewrite Hst.
  - destruct IH as (J1 & J2 & J3). pose proof (J1 a Ha) as Hva.
    destruct (copy_cases h a res Hva)
      as (sz & l & b0 & Ht & Hd & Hl & Hall & Hlen & [[Hmem E]|E]).
    + pose proof (copy_valid h a res _ _ Hva E) as Hvb.
      rewrite E in Hcp. injection Hcp as <- <- <-. cbn [succeeded].
      set (nb := Block 1 sz (blk_cells b0)) in *.
      assert (Hb : dim0_size (u a) * sz = block_bytes nb).
      { unfold block_bytes, nb; cbn [blk_cells blk_elemsize]. now rewrite Hlen. }
      rewrite Hb in *. apply world_inv_alloc; try reflexivity; try assumption.
      exact (conj J1 (conj J2 J3)).
    + rewrite E in Hcp. injection Hcp as <- <- <-.
      exact (conj J1 (conj J2 J3)).
  - pose proof IH as (J1 & _). pose proof (J1 a Ha) as Hva.
    destruct (share_valid h a Hva) as (l & b0 & Hd & Hl & _ & E).
    rewrite E in Hsh. injection Hsh as <- <-.
    now apply world_inv_share.
  - pose proof IH as (J1 & _).
    assert (Hva : valid h a = true).
    { apply J1, elem_of_app. right. apply list_elem_of_here. }
    destruct (free_valid h a Hva) as (l & b0 & Hd & Hl & _ & E).
    rewrite E in Hfr. injection Hfr as _ <-.
    now apply (world_inv_free mem0 h cs1 a cs2 l b0).
  - pose proof IH as (J1 & _).
    destruct (get_valid_cases h a i res (J1 a Ha)) as [(x & _ & _ & E)|[_ E]];
      rewrite E in Hget; injection Hget as <- <-; exact IH.
  - eapply world_inv_set; eauto.
Qed.

(** X8.  In every state reached by making, copying, sharing, reading, writing and
    disposing of containers, the reference count of each live block is
    positive and equals the number of handles not yet disposed of that point
    to it, and the bytes of the live blocks and the bytes the allocator has
    left add up to the bytes it started with. *)
Theorem refcount_is_handle_count mem0 h cs :
  world mem0 h cs ->
  (forall l b, blocks h !! l = Some b ->
               0 < blk_rc b /\ blk_rc b = refs l cs)
  /\ mem_left h + allocated (blocks h) = mem0.
Proof.
  intros Hw. destruct (world_keeps_inv _ _ _ Hw) as (_ & J2 & J3). auto.
Qed.

(** X9.  In every such state each handle not yet disposed of is valid, and no
    call on it runs into undefined behaviour: [get], [set], [copy], the
    reference copy and the destructor all return. *)
Theorem live_handles_are_safe mem0 h cs a :
  world mem0 h cs -> a ∈ cs ->
  valid h a = true
  /\ (forall i r, exists x, get a i r h = Some (x, h))
  /\ (forall i v, is_Some (set a i v h))
  /\ (forall res, is_Some (copy a res h))
  /\ is_Some (_fx_copy_N16Hashmap__index_t a h)
  /\ is_Some (_fx_free_N16Hashmap__index_t a h).
Proof.
  intros Hw Ha.
  destruct (world_keeps_inv _ _ _ Hw) as (J1 & _).
  pose proof (J1 a Ha) as Hv.
  split; [assumption|]. split; [|split; [|split; [|split]]].
  - intros i r.
    destruct (get_valid_cases h a i r Hv) as [(x & _ & _ & E)|[_ E]];
      rewrite E; eauto.
  - intros i v.
    destruct (set_valid_cases h a i v Hv)
      as (l & b & _ & _ & _ & _ & [[_ E]|[_ E]]); rewrite E; eauto.
  - intros res.
    destruct (copy_cases h a res Hv)
      as (sz & l & b & _ & _ & _ & _ & _ & [[_ E]|E]); rewrite E; eauto.
  - destruct (share_valid h a Hv) as (l & b & _ & _ & _ & E). rewrite E; eauto.
  - destruct (free_valid h a Hv) as (l & b & _ & _ & _ & E). rewrite E; eauto.
Qed.

(** X10.  Once every handle has been disposed of, no block is left in the store
    and the allocator has all its bytes back. *)
Theorem no_block_outlives_its_handles mem0 h :
  world mem0 h [] -> blocks h = ∅ /\ mem_left h = mem0.
Proof.
  intros Hw. destruct (world_keeps_inv _ _ _ Hw) as (_ & J2 & J3).
  assert (He : blocks h = ∅).
  { apply map_empty. intros l. destruct (blocks h !! l) as [b|] eqn:Hl;
      [|reflexivity].
    destruct (J2 l b Hl) as [Hp He]. cbn [refs] in He. lia. }
  split; [assumption|].
  rewrite He in J3. unfold allocated in J3. rewrite map_fold_empty in J3. lia.
Qed.

(** *** The properties at concrete containers *)

Lemma makeindex_allocates_one_block_witness :
  makeindex 4 no_index empty_store = Some ((FX_OK, narrow_index), zero_store)
  /\ exists l b,
       data (u narrow_index) = Some l /\ blocks empty_store !! l = None
       /\ blocks zero_store !! l = Some b /\ blk_rc b = 1
       /\ block_bytes b = request_bytes 4
       /\ (forall l', l' <> l ->
                      blocks zero_store !! l' = blocks empty_store !! l')
       /\ mem_left zero_store = mem_left empty_store - request_bytes 4.
Proof.
  split; [vm_compute; reflexivity|].
  apply (makeindex_allocates_one_block 4 no_index empty_store).
  vm_compute; reflexivity.
Defined.

Lemma copy_all_or_nothing_witness :
  valid narrow_store narrow_index = true
  /\ tier_elemsize (tag narrow_index) = Some 1
  /\ exists st b h',
       copy narrow_index no_index narrow_store = Some ((st, b), h')
       /\ ((st = FX_OK
            /\ dim0_size (u narrow_index) * 1 <= mem_left narrow_store
            /\ exists l nb,
                 data (u b) = Some l /\ blocks narrow_store !! l = None
                 /\ blocks h' !! l = Some nb /\ blk_rc nb = 1
                 /\ block_bytes nb = dim0_size (u narrow_index) * 1
                 /\ (forall l', l' <> l ->
                                blocks h' !! l' = blocks narrow_store !! l')
                 /\ mem_left h'
                    = mem_left narrow_store - dim0_size (u narrow_index) * 1)
           \/ (st = FX_EXN_OutOfMemError
               /\ mem_left narrow_store < dim0_size (u narrow_index) * 1
               /\ b = no_index /\ h' = narrow_store)).
Proof.
  split; [vm_compute; reflexivity|]. split; [vm_compute; reflexivity|].
  apply (copy_all_or_nothing narrow_store narrow_index no_index 1);
    vm_compute; reflexivity.
Defined.

Lemma makeindex_then_free_witness :
  makeindex 4 no_index empty_store = Some ((FX_OK, narrow_index), zero_store)
  /\ exists idx',
       _fx_free_N16Hashmap__index_t narrow_index zero_store
       = Some (idx', empty_store)
       /\ tag idx' = 0 /\ data (u idx') = None.
Proof.
  split; [vm_compute; reflexivity|].
  apply (makeindex_then_free 4 no_index empty_store).
  vm_compute; reflexivity.
Defined.

Lemma copy_then_free_witness :
  valid narrow_store narrow_index = true
  /\ copy narrow_index no_index narrow_store
     = Some ((FX_OK, narrow_copy), copied_store)
  /\ exists b',
       _fx_free_N16Hashmap__index_t narrow_copy copied_store
       = Some (b', narrow_store)
       /\ tag b' = 0 /\ data (u b') = None.
Proof.
  split; [vm_compute; reflexivity|]. split; [vm_compute; reflexivity|].
  apply (copy_then_free narrow_store narrow_index no_index);
    vm_compute; reflexivity.
Defined.

Lemma freed_handle_is_dead_witness :
  _fx_free_N16Hashmap__index_t narrow_index zero_store
  = Some (dead_index, empty_store)
  /\ tag dead_index = 0
  /\ forall h2 i v r res,
       size dead_index r = (FX_EXN_NoMatchError, r)
       /\ get dead_index i r h2 = Some ((FX_EXN_NoMatchError, r), h2)
       /\ set dead_index i v h2 = Some (FX_EXN_NoMatchError, h2)
       /\ copy dead_index res h2 = Some ((FX_EXN_NoMatchError, res), h2)
       /\ _fx_free_N16Hashmap__index_t dead_index h2 = Some (dead_index, h2)
       /\ _fx_copy_N16Hashmap__index_t dead_index h2 = Some (dead_index, h2).
Proof.
  split; [vm_compute; reflexivity|].
  apply (freed_handle_is_dead zero_store narrow_index dead_index empty_store).
  vm_compute; reflexivity.
Defined.

Lemma share_then_free_witness :
  valid zero_store narrow_index = true
  /\ exists b h1 b',
       _fx_copy_N16Hashmap__index_t narrow_index zero_store = Some (b, h1)
       /\ tag b = tag narrow_index /\ u b = u narrow_index
       /\ valid h1 narrow_index = true /\ valid h1 b = true
       /\ cells_of h1 b = cells_of zero_store narrow_index
       /\ _fx_free_N16Hashmap__index_t b h1 = Some (b', zero_store)
       /\ tag b' = 0.
Proof.
  split; [vm_compute; reflexivity|].
  apply (share_then_free zero_store narrow_index).
  vm_compute; reflexivity.
Defined.

(** A container is made and shared once. *)
Lemma shared_world : world 4096 shared_store [narrow_index; narrow_index].
Proof.
  apply (world_share 4096 zero_store [narrow_index] narrow_index).
  - apply (world_makeindex 4096 empty_store [] 4 no_index FX_OK narrow_index).
    + apply world_init.
    + vm_compute; reflexivity.
  - apply list_elem_of_here.
  - vm_compute; reflexivity.
Defined.

(** Both handles are disposed of. *)
Lemma emptied_world : world 4096 empty_store [].
Proof.
  apply (world_free 4096 zero_store [] narrow_index [] dead_index).
  - apply (world_free 4096 shared_store [narrow_index] narrow_index []
             dead_index).
    + exact shared_world.
    + vm_compute; reflexivity.
  - vm_compute; reflexivity.
Defined.

Lemma refcount_is_handle_count_witness :
  world 4096 shared_store [narrow_index; narrow_index]
  /\ (forall l b, blocks shared_store !! l = Some b ->
                  0 < blk_rc b
                  /\ blk_rc b = refs l [narrow_index; narrow_index])
  /\ mem_left shared_store + allocated (blocks shared_store) = 4096.
Proof.
  split; [exact shared_world|].
  apply (refcount_is_handle_count 4096 shared_store
           [narrow_index; narrow_index]).
  exact shared_world.
Defined.

Lemma live_handles_are_safe_witness :
  world 4096 shared_store [narrow_index; narrow_index]
  /\ narrow_index ∈ [narrow_index; narrow_index]
  /\ valid shared_store narrow_index = true
  /\ (forall i r, exists x, get narrow_index i r shared_store
                            = Some (x, shared_store))
  /\ (forall i v, is_Some (set narrow_index i v shared_store))
  /\ (forall res, is_Some (copy narrow_index res shared_store))
  /\ is_Some (_fx_copy_N16Hashmap__index_t narrow_index shared_store)
  /\ is_Some (_fx_free_N16Hashmap__index_t narrow_index shared_store).
Proof.
  split; [exact shared_world|]. split; [apply list_elem_of_here|].
  apply (live_handles_are_safe 4096 shared_store
           [narrow_index; narrow_index] narrow_index);
    [exact shared_world | apply list_elem_of_here].
Defined.

Lemma no_block_outlives_its_handles_witness :
  world 4096 empty_store []
  /\ blocks empty_store = ∅ /\ mem_left empty_store = 4096.
Proof.
  split; [exact emptied_world|].
  apply (no_block_outlives_its_handles 4096 empty_store).
  exact emptied_world.
Defined.

End HashmapLifetime.

(** ** What the line reader returns *)

Module FileLines.
Import File FileProperties.

Lemma fgets_chars_split n s chunk rest stopped :
  fgets_chars n s = (chunk, rest, stopped) -> s = chunk ++ rest.
Proof.
  revert s chunk rest stopped.
  induction n as [|n IH]; intros s chunk rest stopped; cbn [fgets_chars].
  - now intros [= <- <- <-].
  - destruct s as [|c s]; [now intros [= <- <- <-]|].
    destruct (Ascii.eqb c newline); [now intros [= <- <- <-]|].
    destruct (fgets_chars n s) as [[l r] st] eqn:E.
    intros [= <- <- <-]. cbn [app]. f_equal. eauto.
Qed.

Lemma fgets_chars_dry n s chunk rest :
  fgets_chars n s = (chunk, rest, false) ->
  rest = [] /\ (length chunk < n)%nat.
Proof.
  revert s chunk rest.
  induction n as [|n IH]; intros s chunk rest; cbn [fgets_chars];
    [discriminate|].
  destruct s as [|c s]; [intros [= <- <-]; simpl; split; [reflexivity|lia]|].
  destruct (Ascii.eqb c newline); [discriminate|].
  destruct (fgets_chars n s) as [[l r] st] eqn:E.
  intros [= <- <- ->]. destruct (IH _ _ _ E). simpl. split; [assumption|lia].
Qed.

Lemma fgets_chars_stopped n s chunk rest :
  fgets_chars n s = (chunk, rest, true) ->
  length chunk = n \/ last chunk = Some newline.
Proof.
  revert s chunk rest.
  induction n as [|n IH]; intros s chunk rest; cbn [fgets_chars].
  - intros [= <- <-]. now left.
  - destruct s as [|c s]; [discriminate|].
    destruct (Ascii.eqb_spec c newline) as [->|Hc];
      [intros [= <- <-]; now right|].
    destruct (fgets_chars n s) as [[l r] st] eqn:E.
    intros [= <- <- ->]. destruct (IH _ _ _ E) as [Hl|Hl].
    + left. simpl. now rewrite Hl.
    + right. rewrite last_cons, Hl. reflexivity.
Qed.



Lemma strlen_no_nul s : NUL ∉ s -> strlen s = Z.of_nat (length s).
Proof.
  induction s as [|c s IH]; intros Hn; cbn [strlen length]; [reflexivity|].
  destruct (Ascii.eqb_spec c NUL) as [->|Hc].
  - exfalso. apply Hn, list_elem_of_here.
  - rewrite IH; [lia|]. intros Hin. apply Hn. now apply list_elem_of_further.
Qed.




(** *** Every pass of the loop *)

Lemma fgets_none count f f' :
  fgets count f = (None, f') ->
  ending f' = ending f
  /\ ((eof_indicator f = true /\ f' = f)
      \/ (ending f = EndOfFile /\ eof_indicator f' = true
          /\ pending f = [] /\ pending f' = [])
      \/ (ending f = ReadError /\ eof_indicator f' = eof_indicator f)).
Proof.
  unfold fgets.
  destruct (eof_indicator f) eqn:Hind; [intros [= <-]; auto|].
  destruct (fgets_chars (Z.to_nat (count - 1)) (pending f))
    as [[l r] st] eqn:E.
  destruct st; [discriminate|].
  pose proof (fgets_chars_split _ _ _ _ _ E) as Hs.
  destruct (ending f) eqn:He.
  - destruct l; [|discriminate]. intros [= <-]. cbn.
    destruct (fgets_chars_dry _ _ _ _ E) as [-> _].
    split; [reflexivity|]. right; left. repeat split; assumption.
  - intros [= <-]. cbn. auto.
Qed.

Lemma fgets_some_full count f chunk f' :
  fgets count f = (Some chunk, f') ->
  pending f = chunk ++ pending f' /\ ending f' = ending f
  /\ (length chunk <= Z.to_nat (count - 1))%nat
  /\ ((eof_indicator f' = eof_indicator f
       /\ (length chunk = Z.to_nat (count - 1)
           \/ last chunk = Some newline))
      \/ (pending f' = [] /\ (length chunk < Z.to_nat (count - 1))%nat)).
Proof.
  unfold fgets.
  destruct (eof_indicator f) eqn:Hind; [discriminate|].
  destruct (fgets_chars (Z.to_nat (count - 1)) (pending f))
    as [[l r] st] eqn:E.
  pose proof (fgets_chars_split _ _ _ _ _ E) as Hs.
  destruct (fgets_chars_length _ _ _ _ _ E) as [Hlen _].
  destruct st.
  - intros [= <- <-]. cbn [pending ending eof_indicator].
    pose proof (fgets_chars_stopped _ _ _ _ E).
    split; [assumption|]. split; [reflexivity|]. split; [assumption|].
    left. split; [reflexivity|assumption].
  - destruct (fgets_chars_dry _ _ _ _ E) as [-> Hlt].
    destruct (ending f) eqn:He; [|discriminate].
    destruct l; [discriminate|].
    intros [= <- <-]. cbn [pending ending eof_indicator].
    split; [assumption|]. split; [reflexivity|]. split; [assumption|].
    right. split; [reflexivity|assumption].
Qed.

(** What the loop comes to, from a state as [fx_fgets] sets it up or as an
    earlier pass left it.  [bound] is the number of characters the stream
    held when [fx_fgets] was called. *)
Lemma loop_outcome fuel :
  forall mem f bufsz bufofs buf bound,
    (length (pending f) < fuel)%nat ->
    128 <= bufsz -> 0 <= bufofs -> 4 * bufofs + 4 <= 3 * bufsz ->
    bufsz + 2 * Z.of_nat (length (pending f)) < 2 ^ 31 ->
    bufofs + Z.of_nat (length (pending f)) <= bound ->
    exists st ofs buf' f',
      fx_fgets_loop fuel mem f bufsz bufofs buf = Some (st, ofs, buf', f')
      /\ ending f' = ending f
      /\ (st = FX_OK
          \/ (st = FX_EXN_IOError /\ ending f = ReadError
              /\ eof_indicator f = false)
          \/ (st = FX_EXN_OutOfMemError
              /\ 2 * mem < 3 * (bound + 1) /\ 127 <= bound))
      /\ (NUL ∉ pending f -> eof_indicator f = false ->
          bufofs = Z.of_nat (length buf) -> st = FX_OK ->
          ofs = Z.of_nat (length buf')
          /\ buf' ++ pending f' = buf ++ pending f
          /\ (pending f' = [] \/ last buf' = Some newline)).
Proof.
  induction fuel as [|fuel IH];
    intros mem f bufsz bufofs buf bound Hfuel Hsz Hofs Hinv Hbound Hcons;
    [lia|].
  cbn [fx_fgets_loop].
  rewrite to_int_id by lia.
  destruct (Z.gtb_spec (bufsz - bufofs) INT_MAX) as [Hbig|_];
    [unfold INT_MAX in Hbig; lia|].
  destruct (fgets (bufsz - bufofs) f) as [[chunk|] f1] eqn:E.
  - destruct (fgets_some_full _ _ _ _ E) as (Hsplit & Hend & Hlen & Hstop).
    pose proof (strlen_bounds chunk) as Hstr.
    assert (Hcount : length (pending f)
                     = (length chunk + length (pending f1))%nat).
    { now rewrite Hsplit at 1; rewrite length_app. }
    rewrite to_int_id by lia.
    destruct (Z.ltb_spec (strlen chunk) (bufsz - bufofs - 1)) as [Hshort|Hfull].
    + exists FX_OK, (bufofs + strlen chunk),
        (buf ++ take (Z.to_nat (strlen chunk)) chunk), f1.
      split; [reflexivity|]. split; [assumption|]. split; [now left|].
      intros Hnul Heof Hbuf _.
      assert (Hnc : NUL ∉ chunk).
      { intros Hin. apply Hnul. rewrite Hsplit. apply elem_of_app. now left. }
      rewrite (strlen_no_nul chunk Hnc) in *.
      rewrite Nat2Z.id, take_ge by lia.
      split; [rewrite length_app; lia|].
      split; [now rewrite Hsplit, app_assoc|].
      destruct Hstop as [[_ [Hl|Hl]]|[Hl _]]; [lia| |now left].
      right. rewrite last_app, Hl. reflexivity.
    + assert (Hblk : strlen chunk = bufsz - bufofs - 1) by lia.
      assert (Hall : Z.of_nat (length chunk) = bufsz - bufofs - 1) by lia.
      destruct (Z.ltb_spec (bufsz - (bufofs + strlen chunk)) 16) as [_|Hroom];
        [|lia].
      assert (Hq : 2 * Z.quot (bufsz * 3) 2 <= 3 * bufsz
                   /\ 3 * bufsz - 1 <= 2 * Z.quot (bufsz * 3) 2).
      { rewrite Z.quot_div_nonneg by lia.
        pose proof (Z.div_mod (bufsz * 3) 2 ltac:(lia)).
        pose proof (Z.mod_pos_bound (bufsz * 3) 2 ltac:(lia)). lia. }
      destruct (fx_realloc mem (Z.quot (bufsz * 3) 2)) eqn:Hre.
      * destruct (IH mem f1 (Z.quot (bufsz * 3) 2) (bufofs + strlen chunk)
                    (buf ++ take (Z.to_nat (strlen chunk)) chunk) bound)
          as (st & ofs & buf' & f' & E' & Hend' & Hst & Hok); try lia.
        exists st, ofs, buf', f'. split; [exact E'|].
        split; [congruence|]. split.
        { destruct Hst as [?|[(? & ? & Hi)|?]]; auto. right; left.
          split; [assumption|]. split; [congruence|].
          destruct Hstop as [[He _]|[_ Hl]]; [congruence|lia]. }
        intros Hnul Heof Hbuf Hsok.
        assert (Hnc : NUL ∉ chunk).
        { intros Hin. apply Hnul. rewrite Hsplit. apply elem_of_app. now left. }
        assert (Hn1 : NUL ∉ pending f1).
        { intros Hin. apply Hnul. rewrite Hsplit. apply elem_of_app. now right. }
        assert (Heof1 : eof_indicator f1 = false).
        { destruct Hstop as [[He _]|[_ Hl]]; [congruence|lia]. }
        rewrite Hblk, <- Hall, Nat2Z.id, take_ge in Hok by lia.
        destruct Hok as (Hofs' & Hcat & Hexit); auto.
        { rewrite length_app. lia. }
        split; [assumption|]. split; [|assumption].
        now rewrite Hcat, Hsplit, app_assoc.
      * exists FX_EXN_OutOfMemError, (bufofs + strlen chunk),
          (buf ++ take (Z.to_nat (strlen chunk)) chunk), f1.
        split; [reflexivity|]. split; [assumption|]. split; [|discriminate].
        right; right. unfold fx_realloc in Hre. apply Z.leb_gt in Hre.
        split; [reflexivity|]. lia.
  - destruct (fgets_none _ _ _ E) as (Hend & Hcase).
    destruct (negb (feof f1)) eqn:Hfeof.
    + exists FX_EXN_IOError, bufofs, buf, f1.
      split; [reflexivity|]. split; [assumption|]. split; [|discriminate].
      right; left. split; [reflexivity|].
      unfold feof in Hfeof.
      destruct Hcase as [[He ->]|[(_ & He & _)|(Hr & He)]];
        [rewrite He in Hfeof; discriminate
        |rewrite He in Hfeof; discriminate|].
      split; [assumption|]. rewrite <- He.
      now destruct (eof_indicator f1).
    + exists FX_OK, bufofs, buf, f1.
      split; [reflexivity|]. split; [assumption|]. split; [now left|].
      intros _ Heof Hbuf _.
      destruct Hcase as [[He _]|[(_ & _ & Hp & Hp1)|(_ & He)]].
      * congruence.
      * split; [assumption|]. split; [now rewrite Hp, Hp1|now left].
      * unfold feof in Hfeof. rewrite He, Heof in Hfeof. discriminate.
Qed.

Lemma first_line_split s :
  s = first_line s ++ drop (length (first_line s)) s.
Proof.
  induction s as [|c s IH]; cbn [first_line]; [reflexivity|].
  destruct (Ascii.eqb c newline); cbn [length drop app]; [reflexivity|].
  now rewrite <- IH.
Qed.

Lemma first_line_app t r :
  newline ∈ t -> first_line (t ++ r) = first_line t.
Proof.
  induction t as [|c t IH]; intros Hin; [now apply elem_of_nil in Hin|].
  cbn [first_line app].
  destruct (Ascii.eqb_spec c newline) as [->|Hc]; [reflexivity|].
  apply elem_of_cons in Hin as [Hin|Hin]; [congruence|].
  now rewrite IH.
Qed.

(** X13.  The reading loop of [fx_fgets] comes to an end on every stream of
    less than 2^30 - 64 characters, and it fails in two ways only.  The I/O
    error needs a stream that ends in a read failure and whose end-of-file
    indicator is clear: the end of the file is no error.  The out-of-memory
    error needs a stream of at least 127 characters and an allocator that
    cannot serve one and a half times its length.  When the loop fails,
    [fx_fgets] returns its status and the destination keeps its content.
    When the loop succeeds, the status and the text [fx_fgets] returns are
    those of [fx_cstr2str] on the buffer the loop filled. *)
Theorem fx_fgets_failure_modes mem f str :
  Z.of_nat (length (pending f)) < 2 ^ 30 - 64 ->
  exists st ofs buf f',
    fx_fgets_loop (S (length (pending f))) mem f FX_FILE_ROW_BUFSIZE 0 []
    = Some (st, ofs, buf, f')
    /\ ending f' = ending f
    /\ (st = FX_OK
        \/ (st = FX_EXN_IOError /\ ending f = ReadError
            /\ eof_indicator f = false)
        \/ (st = FX_EXN_OutOfMemError
            /\ 127 <= Z.of_nat (length (pending f))
            /\ 2 * mem < 3 * (Z.of_nat (length (pending f)) + 1)))
    /\ (st <> FX_OK -> fx_fgets mem f str = Some (st, str, f'))
    /\ (st = FX_OK ->
        fx_fgets mem f str
        = Some (fst (fx_cstr2str buf ofs), snd (fx_cstr2str buf ofs), f')).
Proof.
  intros Hlen.
  destruct (loop_outcome (S (length (pending f))) mem f FX_FILE_ROW_BUFSIZE 0
              [] (Z.of_nat (length (pending f))))
    as (st & ofs & buf & f' & E & Hend & Hst & _);
    unfold FX_FILE_ROW_BUFSIZE in *; try lia.
  exists st, ofs, buf, f'.
  split; [exact E|]. split; [assumption|].
  split.
  { destruct Hst as [->|[(-> & Hr & Hi)|(-> & Hm & Hb)]]; auto. }
  unfold fx_fgets, FX_FILE_ROW_BUFSIZE. rewrite E.
  split.
  - intros Hne. destruct st; cbn [succeeded]; [congruence|reflexivity..].
  - intros ->. cbn [succeeded].
    now destruct (fx_cstr2str buf ofs).
Qed.

(** X14.  On a stream without NUL that has not met its end before, a successful
    [fx_fgets] neither drops nor reorders a character: the text returned
    followed by what is still pending is the stream as it was.  The text
    starts with the whole first line, and reading stopped after a newline or
    when the stream was used up. *)
Theorem fx_fgets_keeps_text mem f str :
  Z.of_nat (length (pending f)) < 2 ^ 30 - 64 ->
  NUL ∉ pending f -> eof_indicator f = false ->
  exists st str' f',
    fx_fgets mem f str = Some (st, str', f')
    /\ (st = FX_OK ->
        str' ++ pending f' = pending f
        /\ (pending f' = [] \/ last str' = Some newline)
        /\ exists more, str' = first_line (pending f) ++ more).
Proof.
  intros Hlen Hnul Heof. unfold fx_fgets.
  destruct (loop_outcome (S (length (pending f))) mem f FX_FILE_ROW_BUFSIZE 0
              [] (Z.of_nat (length (pending f))))
    as (st & ofs & buf & f' & -> & Hend & _ & Hok);
    unfold FX_FILE_ROW_BUFSIZE; try lia.
  destruct st; cbn [succeeded];
    try (do 3 eexists; split; [reflexivity|discriminate]).
  destruct (Hok Hnul Heof eq_refl eq_refl) as (Hofs & Hcat & Hexit).
  unfold fx_cstr2str. rewrite Hofs, Nat2Z.id, take_ge by lia.
  do 3 eexists. split; [reflexivity|]. intros _.
  cbn [app] in Hcat. split; [assumption|]. split; [assumption|].
  destruct Hexit as [Hp|Hl].
  - rewrite Hp, app_nil_r in Hcat. subst buf.
    eexists. apply first_line_split.
  - assert (Hin : newline ∈ buf).
    { apply last_Some in Hl as [l' ->]. apply elem_of_app. right.
      apply list_elem_of_here. }
    rewrite <- Hcat, (first_line_app buf _ Hin).
    eexists. apply first_line_split.
Qed.

(** *** The properties at concrete streams *)

Lemma short_stream_no_nul : NUL ∉ pending short_stream.
Proof.
  intros H. cbn [short_stream pending] in H.
  repeat (apply elem_of_cons in H as [H|H]; [discriminate H|]).
  now apply elem_of_nil in H.
Defined.





Lemma fx_fgets_failure_modes_witness :
  Z.of_nat (length (pending broken_stream)) < 2 ^ 30 - 64
  /\ exists st ofs buf f',
       fx_fgets_loop (S (length (pending broken_stream))) 0 broken_stream
         FX_FILE_ROW_BUFSIZE 0 []
       = Some (st, ofs, buf, f')
       /\ ending f' = ending broken_stream
       /\ (st = FX_OK
           \/ (st = FX_EXN_IOError /\ ending broken_stream = ReadError
               /\ eof_indicator broken_stream = false)
           \/ (st = FX_EXN_OutOfMemError
               /\ 127 <= Z.of_nat (length (pending broken_stream))
               /\ 2 * 0 < 3 * (Z.of_nat (length (pending broken_stream)) + 1)))
       /\ (st <> FX_OK ->
           fx_fgets 0 broken_stream ["z"%char] = Some (st, ["z"%char], f'))
       /\ (st = FX_OK ->
           fx_fgets 0 broken_stream ["z"%char]
           = Some (fst (fx_cstr2str buf ofs), snd (fx_cstr2str buf ofs), f')).
Proof.
  split; [vm_compute; reflexivity|].
  apply (fx_fgets_failure_modes 0 broken_stream ["z"%char]).
  vm_compute; reflexivity.
Defined.

Lemma fx_fgets_keeps_text_witness :
  Z.of_nat (length (pending short_stream)) < 2 ^ 30 - 64
  /\ (NUL ∉ pending short_stream) /\ eof_indicator short_stream = false
  /\ exists st str' f',
       fx_fgets 0 short_stream [] = Some (st, str', f')
       /\ (st = FX_OK ->
           str' ++ pending f' = pending short_stream
           /\ (pending f' = [] \/ last str' = Some newline)
           /\ exists more, str' = first_line (pending short_stream) ++ more).
Proof.
  split; [vm_compute; reflexivity|].
  split; [exact short_stream_no_nul|]. split; [reflexivity|].
  apply (fx_fgets_keeps_text 0 short_stream []);
    [vm_compute; reflexivity | exact short_stream_no_nul | reflexivity].
Defined.

End FileLines.

(** ** What the writer writes *)

Module FileWrites.
Import File.

Lemma cstring_no_nul s : NUL ∉ s -> cstring s = s.
Proof.
  induction s as [|c s IH]; intros Hn; cbn [cstring]; [reflexivity|].
  destruct (Ascii.eqb_spec c NUL) as [->|Hc].
  - exfalso. apply Hn, list_elem_of_here.
  - rewrite IH; [reflexivity|]. intros Hin. apply Hn.
    now apply list_elem_of_further.
Qed.

Lemma flat_map_no_nul (encode : Z -> list ascii) (l : list Z) :
  (forall c, c ∈ l -> NUL ∉ encode c) -> NUL ∉ flat_map encode l.
Proof.
  induction l as [|c l IH]; intros Hn; cbn [flat_map].
  - apply not_elem_of_nil.
  - intros Hin. apply elem_of_app in Hin as [Hin|Hin].
    + apply (Hn c); [apply list_elem_of_here|assumption].
    + apply IH; [|assumption]. intros c' Hc'. apply Hn.
      now apply list_elem_of_further.
Qed.

(** The loop from character [k] on: the encoding of the rest of the string
    goes out whole when the stream accepts it. *)
Lemma fx_fputs_loop_from encode str fuel :
  forall (k : nat) f,
    (forall c, c ∈ str -> NUL ∉ encode c) ->
    (length str - k < fuel)%nat ->
    Z.of_nat (length (flat_map encode (drop k str))) <= room f ->
    fx_fputs_loop fuel encode f str (Z.of_nat k)
    = Some (FX_OK,
            MkOut (written f ++ flat_map encode (drop k str))
                  (room f - Z.of_nat (length (flat_map encode (drop k str))))).
Proof.
  induction fuel as [|fuel IH]; intros k f Hnul Hfuel Hfit; [lia|].
  cbn [fx_fputs_loop].
  destruct (Z.ltb_spec (Z.of_nat k) (Z.of_nat (length str))) as [Hlt|Hge].
  - set (chunk := fx_str2cstr_slice encode str (Z.of_nat k) FX_FILE_ROW_BUFSIZE).
    set (rest := flat_map encode (drop (k + 128) str)).
    assert (Hsplit : flat_map encode (drop k str) = chunk ++ rest).
    { unfold chunk, rest, fx_str2cstr_slice.
      rewrite Nat2Z.id. change (Z.to_nat FX_FILE_ROW_BUFSIZE) with 128%nat.
      rewrite <- flat_map_app, <- drop_drop, take_drop. reflexivity. }
    assert (Hc : cstring chunk = chunk).
    { apply cstring_no_nul, flat_map_no_nul. intros c Hin. apply Hnul.
      apply elem_of_take in Hin as (j & Hj & _).
      rewrite lookup_drop in Hj. eapply list_elem_of_lookup_2; eauto. }
    rewrite Hsplit, length_app in *. unfold fputs. rewrite Hc.
    destruct (Z.leb_spec (Z.of_nat (length chunk)) (room f)) as [_|Hover];
      [|lia].
    change (Z.of_nat k + FX_FILE_ROW_BUFSIZE) with (Z.of_nat k + 128).
    replace (Z.of_nat k + 128) with (Z.of_nat (k + 128)) by lia.
    rewrite IH by (try assumption; cbn [room]; fold rest; lia).
    cbn [written room]. fold rest.
    rewrite <- app_assoc. do 3 f_equal. lia.
  - rewrite drop_ge by lia. cbn [flat_map length].
    rewrite app_nil_r. change (Z.of_nat 0) with 0. rewrite Z.sub_0_r.
    now destruct f.
Qed.

(** X15.  When no character is encoded with a NUL in it and the device takes the
    whole encoding of the string, [fx_fputs] succeeds and has written
    exactly that encoding, the 128-character slices one after the other with
    nothing lost or repeated between them. *)
Theorem fx_fputs_writes_all encode f str :
  (forall c, c ∈ str -> NUL ∉ encode c) ->
  0 <= room f ->
  Z.of_nat (length (flat_map encode str)) <= room f ->
  fx_fputs encode f str
  = Some (FX_OK,
          MkOut (written f ++ flat_map encode str)
                (room f - Z.of_nat (length (flat_map encode str)))).
Proof.
  intros Hnul Hroom Hfit. unfold fx_fputs.
  change 0 with (Z.of_nat 0).
  rewrite fx_fputs_loop_from by (try assumption; rewrite ?drop_0; lia).
  rewrite drop_0. reflexivity.
Qed.

(** *** The properties at a concrete string *)

Lemma long_string_no_nul : forall c, c ∈ long_string -> NUL ∉ one_byte c.
Proof.
  intros c Hc. apply elem_of_replicate in Hc as [-> _].
  intros H. apply elem_of_cons in H as [H|H]; [discriminate H|].
  now apply elem_of_nil in H.
Defined.

Lemma fx_fputs_writes_all_witness :
  (forall c, c ∈ long_string -> NUL ∉ one_byte c)
  /\ 0 <= room (MkOut [] 1000)
  /\ Z.of_nat (length (flat_map one_byte long_string)) <= room (MkOut [] 1000)
  /\ fx_fputs one_byte (MkOut [] 1000) long_string
     = Some (FX_OK,
             MkOut (written (MkOut [] 1000) ++ flat_map one_byte long_string)
                   (room (MkOut [] 1000)
                    - Z.of_nat (length (flat_map one_byte long_string)))).
Proof.
  split; [exact long_string_no_nul|].
  split; [vm_compute; discriminate|]. split; [vm_compute; discriminate|].
  apply (fx_fputs_writes_all one_byte (MkOut [] 1000) long_string);
    [exact long_string_no_nul | vm_compute; discriminate
    | vm_compute; discriminate].
Defined.

End FileWrites.
